(** * Route optimizer: the TSP solver of [src/types/route.ts]

    A shallow embedding of [TSPSolver] (cost model, nearest-neighbour
    construction, 2-opt refinement, aggregation of totals) and the
    properties of it that the specification states.

    Conventions of the embedding.
    - A JavaScript [number] that the solver computes is a rational or
      [Infinity]: the solver only adds, multiplies and divides by positive
      constants, compares with [<], and introduces the constant [Infinity]
      itself.  The quantities stored in the matrix (meters, seconds) are
      rationals.  Rounding of IEEE doubles is not modelled there.
    - Which of two computed costs is the smaller depends on the rounding:
      two costs that are the same rational can be different doubles.  For
      the choice of the nearest stop and for the acceptance of a 2-opt
      move, the solver is therefore also embedded on IEEE doubles, the
      primitive binary64 floats, in the module [Binary64].
    - A JavaScript object used as a dictionary is a [gmap] with string keys.
    - A call either returns a value or throws: [Outcome].
    - [Math.random()] is the next value of a sequence of draws that the
      caller supplies, and what the Maps services answer is an input.

    Beside the solver, the development covers the list of locations of
    [App.tsx], the distance matrices and the fallback route of
    [services/googleMapsService.ts], and the averages of the
    [DistanceMatrix] component. *)

From Stdlib Require Import QArith Lqa Qround Floats.
From stdpp Require Import gmap strings list pretty.
From Equations Require Import Equations.

Local Open Scope Q_scope.

(** ** Numbers *)

Inductive number : Type :=
| Fin (q : Q)
| Infinity.

Definition num_add (a b : number) : number :=
  match a, b with
  | Fin x, Fin y => Fin (x + y)
  | _, _ => Infinity
  end.

(** [a < b] of JavaScript. *)
Definition num_ltb (a b : number) : bool :=
  match a, b with
  | Fin x, Fin y => negb (Qle_bool y x)
  | Fin _, Infinity => true
  | Infinity, _ => false
  end.

Definition is_finite (a : number) : bool :=
  match a with Fin _ => true | Infinity => false end.

(** Equality of numbers as values ([1/2] and [2/4] are the same number). *)
Definition num_eq (a b : number) : Prop :=
  match a, b with
  | Fin x, Fin y => x == y
  | Infinity, Infinity => True
  | _, _ => False
  end.

Definition num_lt (a b : number) : Prop := num_ltb a b = true.

Definition num_le (a b : number) : Prop :=
  match a, b with
  | Fin x, Fin y => x <= y
  | _, Infinity => True
  | Infinity, Fin _ => False
  end.

(** ** Data model *)

Record Location : Type := {
  id : string;
  address : string;
  lat : option Q;
  lng : option Q;
  isBase : option bool
}.

Record Measure : Type := {
  text : string;
  value : Q
}.

Record DistanceMatrixElement : Type := {
  distance : Measure;
  duration : Measure;
  status : string
}.

Abbreviation DistanceMatrix := (gmap string (gmap string DistanceMatrixElement)).

Record OptimizedRoute : Type := {
  order : list string;
  totalDistance : number;
  totalTime : number;
  totalCost : number
}.

Inductive JsError : Type :=
| Error (message : string)
| TypeError (message : string).

Inductive Outcome (A : Type) : Type :=
| Returned (a : A)
| Threw (e : JsError).
Arguments Returned {A} a.
Arguments Threw {A} e.

(** Truthiness of an optional boolean property ([l.isBase]). *)
Definition truthy (b : option bool) : bool :=
  match b with Some true => true | _ => false end.

(** [matrix[fromId]?.[toId]] *)
Definition lookup2 (matrix : DistanceMatrix) (fromId toId : string)
  : option DistanceMatrixElement :=
  match matrix !! fromId with
  | Some row => row !! toId
  | None => None
  end.

Definition status_ok (element : DistanceMatrixElement) : bool :=
  String.eqb (status element) "OK".

(** ** Cost model *)

Definition DISTANCE_WEIGHT : Q := 0.3.
Definition TIME_WEIGHT : Q := 0.7.

Definition calculateCost (fromId toId : string) (matrix : DistanceMatrix) : number :=
  match lookup2 matrix fromId toId with
  | None => Infinity
  | Some element =>
      if negb (status_ok element) then Infinity
      else
        let distance := value (distance element) / 1000 in
        let time := value (duration element) / 60 in
        Fin (DISTANCE_WEIGHT * distance + TIME_WEIGHT * time)
  end.

(** ** Nearest-neighbour construction *)

(** The [for] loop of [nearestNeighborTSP]: [rest] holds
    [unvisited[i..]]. *)
Fixpoint scan (currentId : string) (matrix : DistanceMatrix)
    (rest : list Location) (i nearestIndex : nat) (minCost : number)
  : nat * number :=
  match rest with
  | [] => (nearestIndex, minCost)
  | u :: rest' =>
      let cost := calculateCost currentId (id u) matrix in
      if num_ltb cost minCost
      then scan currentId matrix rest' (S i) i cost
      else scan currentId matrix rest' (S i) nearestIndex minCost
  end.

Definition nearestIndex (current : Location) (unvisited : list Location)
    (matrix : DistanceMatrix) : nat :=
  fst (scan (id current) matrix unvisited 0%nat 0%nat Infinity).

(** Case analysis on a value that keeps the equation. *)
Definition inspect {A : Type} (x : A) : { y : A | x = y } := exist _ x eq_refl.

(** The [while] loop of [nearestNeighborTSP].  [unvisited.splice(k, 1)[0]]
    is [undefined] when [k] is out of range, and reading [.id] of it
    throws. *)
Equations? nn_while (matrix : DistanceMatrix) (unvisited : list Location)
    (route : list string) (current : Location)
  : Outcome (list string) by wf (length unvisited) lt :=
  nn_while matrix [] route current := Returned route;
  nn_while matrix (u :: us) route current
    with inspect ((u :: us) !! nearestIndex current (u :: us) matrix) => {
    | exist _ (Some nearest) Hn :=
        nn_while matrix (delete (nearestIndex current (u :: us) matrix) (u :: us))
                 (route ++ [id nearest]) nearest;
    | exist _ None Hn := Threw (TypeError "Cannot read properties of undefined")
    }.
Proof.
  rewrite length_delete by eauto. simpl. lia.
Qed.

Definition nearestNeighborTSP (base : Location) (deliveries : list Location)
    (matrix : DistanceMatrix) : Outcome (list string) :=
  match nn_while matrix deliveries [id base] base with
  | Returned route => Returned (route ++ [id base])
  | Threw e => Threw e
  end.

(** ** Totals of a route *)

Record Totals : Type := {
  sumDistance : number;
  sumTime : number;
  sumCost : number
}.

(** The body of the loop of [calculateRouteTotals] for one leg. *)
Definition totals_step (matrix : DistanceMatrix) (acc : Totals)
    (fromId toId : string) : Totals :=
  match lookup2 matrix fromId toId with
  | Some element =>
      if status_ok element then
        {| sumDistance := num_add (sumDistance acc) (Fin (value (distance element) / 1000));
           sumTime := num_add (sumTime acc) (Fin (value (duration element) / 60));
           sumCost := num_add (sumCost acc) (calculateCost fromId toId matrix) |}
      else acc
  | None => acc
  end.

(** The loop over [i < order.length - 1], reading [order[i]] and
    [order[i + 1]]. *)
Fixpoint totals_loop (matrix : DistanceMatrix) (acc : Totals)
    (order : list string) : Totals :=
  match order with
  | fromId :: ((toId :: _) as rest) =>
      totals_loop matrix (totals_step matrix acc fromId toId) rest
  | _ => acc
  end.

Definition calculateRouteTotals (order : list string) (matrix : DistanceMatrix)
  : Totals :=
  totals_loop matrix
    {| sumDistance := Fin 0; sumTime := Fin 0; sumCost := Fin 0 |} order.

(** The consecutive pairs [(order[i], order[i + 1])] of a route. *)
Definition legs (order : list string) : list (string * string) :=
  zip order (tail order).

(** The pair has an entry in the matrix and its status is OK. *)
Definition leg_ok (matrix : DistanceMatrix) (p : string * string) : bool :=
  match lookup2 matrix (fst p) (snd p) with
  | Some element => status_ok element
  | None => false
  end.

(** The sum of the Cost-Model values of a list of pairs. *)
Definition sum_costs (matrix : DistanceMatrix) (ps : list (string * string))
  : number :=
  fold_left (λ acc p, num_add acc (calculateCost (fst p) (snd p) matrix))
            ps (Fin 0).

(** ** The orchestrator *)

Definition optimizeRoute (locations : list Location) (distanceMatrix : DistanceMatrix)
  : Outcome OptimizedRoute :=
  if (length locations <=? 2)%nat then
    Returned {| order := map id locations;
                totalDistance := Fin 0;
                totalTime := Fin 0;
                totalCost := Fin 0 |}
  else
    let baseLocation := find (fun l => truthy (isBase l)) locations in
    let deliveryLocations := filter (fun l => negb (truthy (isBase l))) locations in
    match baseLocation with
    | None => Threw (Error "Base location not found")
    | Some baseLocation =>
        match nearestNeighborTSP baseLocation deliveryLocations distanceMatrix with
        | Threw e => Threw e
        | Returned optimizedOrder =>
            let t := calculateRouteTotals optimizedOrder distanceMatrix in
            Returned {| order := optimizedOrder;
                        totalDistance := sumDistance t;
                        totalTime := sumTime t;
                        totalCost := sumCost t |}
        end
    end.

(** ** 2-opt refinement *)

(** The loop of [calculateRouteCost], [cost] being the running sum. *)
Fixpoint cost_loop (matrix : DistanceMatrix) (cost : number)
    (route : list string) : number :=
  match route with
  | a :: ((b :: _) as rest) =>
      cost_loop matrix (num_add cost (calculateCost a b matrix)) rest
  | _ => cost
  end.

Definition calculateRouteCost (route : list string) (matrix : DistanceMatrix)
  : number :=
  cost_loop matrix (Fin 0) route.

(** [route.slice(i, j + 1).reverse()] spliced back over the [j - i + 1]
    places from [i]; [splice] takes a negative count for [0].  It is called
    with [i <= j] only. *)
Definition swap2Opt (route : list string) (i j : nat) : list string :=
  let segment := rev (take (j + 1 - i) (drop i route)) in
  take i route ++ segment ++ drop (i + (j + 1 - i)) route.

Record SearchState : Type := {
  bestRoute : list string;
  bestCost : number;
  improved : bool
}.

(** The body of the inner loop. *)
Definition try_swap (matrix : DistanceMatrix) (st : SearchState) (i j : nat)
  : SearchState :=
  let newRoute := swap2Opt (bestRoute st) i j in
  let newCost := calculateRouteCost newRoute matrix in
  if num_ltb newCost (bestCost st) then
    {| bestRoute := newRoute; bestCost := newCost; improved := true |}
  else st.

(** [for (j = i + 1; j < n - 1; j++)], [n] being [route.length]. *)
Definition inner_loop (matrix : DistanceMatrix) (n : nat) (st : SearchState)
    (i : nat) : SearchState :=
  fold_left (fun st j => try_swap matrix st i j)
            (seq (i + 1) (n - 1 - (i + 1))) st.

(** [for (i = 1; i < n - 2; i++)], after [improved = false]. *)
Definition pass (matrix : DistanceMatrix) (n : nat) (route : list string)
    (cost : number) : SearchState :=
  fold_left (inner_loop matrix n) (seq 1 (n - 2 - 1))
            {| bestRoute := route; bestCost := cost; improved := false |}.

(** [while (improved)]: [None] when the loop is still running after
    [fuel] passes. *)
Fixpoint optimize2Opt_while (fuel : nat) (matrix : DistanceMatrix) (n : nat)
    (route : list string) (cost : number) : option (list string) :=
  match fuel with
  | O => None
  | S fuel' =>
      let st := pass matrix n route cost in
      if improved st
      then optimize2Opt_while fuel' matrix n (bestRoute st) (bestCost st)
      else Some (bestRoute st)
  end.

Definition optimize2Opt_fuel (fuel : nat) (route : list string)
    (matrix : DistanceMatrix) : option (list string) :=
  optimize2Opt_while fuel matrix (length route) route
                     (calculateRouteCost route matrix).

(** A number of passes that always suffices: every pass but the last moves
    to a rearrangement of the route that is strictly cheaper than all the
    ones before. *)
Definition pass_bound (route : list string) : nat :=
  S (length (permutations route)).

(** [optimize2Opt]: the loop run with [pass_bound route] passes.  It has
    returned by then, so that the second branch is never taken. *)
Definition optimize2Opt (route : list string) (matrix : DistanceMatrix)
  : list string :=
  match optimize2Opt_fuel (pass_bound route) route matrix with
  | Some r => r
  | None => route
  end.

(** The number of rearrangements of [route] that cost strictly less than
    [c]: what the [while] loop of [optimize2Opt] decreases. *)
Definition cheaper_count (matrix : DistanceMatrix) (route : list string)
    (c : number) : nat :=
  length (filter (λ p, num_ltb (calculateRouteCost p matrix) c)
                 (permutations route)).

(** What holds of the search state all along a pass that starts from
    [route]: the best route is a rearrangement of [route] with the same
    ends, [bestCost] is its cost, and either a strictly cheaper route was
    accepted or nothing has changed. *)
Definition pass_inv (matrix : DistanceMatrix) (route : list string)
    (st : SearchState) : Prop :=
  bestRoute st ≡ₚ route ∧
  head (bestRoute st) = head route ∧
  last (bestRoute st) = last route ∧
  bestCost st = calculateRouteCost (bestRoute st) matrix ∧
  (if improved st
   then num_ltb (bestCost st) (calculateRouteCost route matrix) = true
   else st = {| bestRoute := route;
                bestCost := calculateRouteCost route matrix;
                improved := false |}).

(** ** Fixtures *)

Definition loc (i : string) (b : bool) : Location :=
  {| id := i; address := ""; lat := None; lng := None; isBase := Some b |}.

Definition entry (meters seconds : Q) (st : string) : DistanceMatrixElement :=
  {| distance := {| text := ""; value := meters |};
     duration := {| text := ""; value := seconds |};
     status := st |}.

Definition matrix_of (l : list (string * list (string * DistanceMatrixElement)))
  : DistanceMatrix :=
  list_to_map (map (fun '(k, row) => (k, list_to_map row)) l).

(** An entry of cost [c]: [0.7 * (c * 600 / 7 / 60) = c]. *)
Definition leg (c : Q) : DistanceMatrixElement := entry 0 (c * 600 / 7) "OK".

Definition scenario1 : DistanceMatrix :=
  matrix_of [("B", [("D1", leg 1); ("D2", leg 5)]);
             ("D1", [("D2", leg 1); ("B", leg 1)]);
             ("D2", [("D1", leg 1); ("B", leg 5)])].

Definition zero_matrix : DistanceMatrix :=
  matrix_of [("A", [("B", entry 0 0 "OK")])].

Definition three_stops : list Location :=
  [loc "D1" false; loc "B" true; loc "D2" false].

(** Three deliveries for which the nearest-neighbour tour
    [B, D1, D2, D3, B] costs 12 and 2-opt finds [B, D2, D1, D3, B] of
    cost 10. *)
Definition scenario2 : DistanceMatrix :=
  matrix_of [("B", [("D1", leg 1); ("D2", leg 4); ("D3", leg 2)]);
             ("D1", [("B", leg 1); ("D2", leg 1); ("D3", leg 3)]);
             ("D2", [("B", leg 4); ("D1", leg 1); ("D3", leg 8)]);
             ("D3", [("B", leg 2); ("D1", leg 3); ("D2", leg 8)])].

(** * The solver on IEEE doubles

    The cost model, the nearest-neighbour construction and the 2-opt
    refinement once more, with the numbers of the matrix and the costs as
    the doubles the program computes with. *)

Module Binary64.

(** The [value] of a distance or a duration is a JavaScript number. *)
Record Measure : Type := {
  text : string;
  value : float
}.

Record DistanceMatrixElement : Type := {
  distance : Measure;
  duration : Measure;
  status : string
}.

Abbreviation DistanceMatrix := (gmap string (gmap string DistanceMatrixElement)).

(** [matrix[fromId]?.[toId]] *)
Definition lookup2 (matrix : DistanceMatrix) (fromId toId : string)
  : option DistanceMatrixElement :=
  match matrix !! fromId with
  | Some row => row !! toId
  | None => None
  end.

Definition status_ok (element : DistanceMatrixElement) : bool :=
  String.eqb (status element) "OK".

(** The literals [0.3] and [0.7] stand for the doubles nearest to them, in
    JavaScript as here. *)
#[warnings="-inexact-float"]
Definition DISTANCE_WEIGHT : float := 0.3%float.
#[warnings="-inexact-float"]
Definition TIME_WEIGHT : float := 0.7%float.

(** [calculateCost]: two divisions, two multiplications and an addition of
    doubles, each rounded to the nearest. *)
Definition calculateCost (fromId toId : string) (matrix : DistanceMatrix) : float :=
  match lookup2 matrix fromId toId with
  | None => infinity
  | Some element =>
      if negb (status_ok element) then infinity
      else
        let distance := (value (distance element) / 1000)%float in
        let time := (value (duration element) / 60)%float in
        (DISTANCE_WEIGHT * distance + TIME_WEIGHT * time)%float
  end.

(** The [for] loop of [nearestNeighborTSP]: [cost < minCost] is the
    comparison of doubles, false when one of them is [NaN]. *)
Fixpoint scan (currentId : string) (matrix : DistanceMatrix)
    (rest : list Location) (i nearestIndex : nat) (minCost : float)
  : nat * float :=
  match rest with
  | [] => (nearestIndex, minCost)
  | u :: rest' =>
      let cost := calculateCost currentId (id u) matrix in
      if PrimFloat.ltb cost minCost
      then scan currentId matrix rest' (S i) i cost
      else scan currentId matrix rest' (S i) nearestIndex minCost
  end.

Definition nearestIndex (current : Location) (unvisited : list Location)
    (matrix : DistanceMatrix) : nat :=
  fst (scan (id current) matrix unvisited 0%nat 0%nat infinity).

(** The [while] loop of [nearestNeighborTSP]. *)
Equations? nn_while (matrix : DistanceMatrix) (unvisited : list Location)
    (route : list string) (current : Location)
  : Outcome (list string) by wf (length unvisited) lt :=
  nn_while matrix [] route current := Returned route;
  nn_while matrix (u :: us) route current
    with inspect ((u :: us) !! nearestIndex current (u :: us) matrix) => {
    | exist _ (Some nearest) Hn :=
        nn_while matrix (delete (nearestIndex current (u :: us) matrix) (u :: us))
                 (route ++ [id nearest]) nearest;
    | exist _ None Hn := Threw (TypeError "Cannot read properties of undefined")
    }.
Proof.
  rewrite length_delete by eauto. simpl. lia.
Qed.

Definition nearestNeighborTSP (base : Location) (deliveries : list Location)
    (matrix : DistanceMatrix) : Outcome (list string) :=
  match nn_while matrix deliveries [id base] base with
  | Returned route => Returned (route ++ [id base])
  | Threw e => Threw e
  end.

(** The states in which the [while] loop of
    [nearestNeighborTSP base deliveries matrix] finds itself at the top of
    an iteration: [unvisited], [route] and [current]. *)
Inductive nn_state (matrix : DistanceMatrix) (base : Location)
    (deliveries : list Location)
  : list Location → list string → Location → Prop :=
| nn_state_init : nn_state matrix base deliveries deliveries [id base] base
| nn_state_step unvisited route current nearest :
    nn_state matrix base deliveries unvisited route current →
    unvisited !! nearestIndex current unvisited matrix = Some nearest →
    nn_state matrix base deliveries
      (delete (nearestIndex current unvisited matrix) unvisited)
      (route ++ [id nearest]) nearest.

(** The loop of [calculateRouteCost]: the costs of the legs added to [0]
    from the left, each sum rounded. *)
Fixpoint cost_loop (matrix : DistanceMatrix) (cost : float)
    (route : list string) : float :=
  match route with
  | a :: ((b :: _) as rest) =>
      cost_loop matrix (cost + calculateCost a b matrix)%float rest
  | _ => cost
  end.

Definition calculateRouteCost (route : list string) (matrix : DistanceMatrix)
  : float :=
  cost_loop matrix 0%float route.

Record SearchState : Type := {
  bestRoute : list string;
  bestCost : float;
  improved : bool
}.

(** The body of the inner loop of [optimize2Opt], its two [for] loops and
    its [while] loop, as above. *)
Definition try_swap (matrix : DistanceMatrix) (st : SearchState) (i j : nat)
  : SearchState :=
  let newRoute := swap2Opt (bestRoute st) i j in
  let newCost := calculateRouteCost newRoute matrix in
  if PrimFloat.ltb newCost (bestCost st) then
    {| bestRoute := newRoute; bestCost := newCost; improved := true |}
  else st.

Definition inner_loop (matrix : DistanceMatrix) (n : nat) (st : SearchState)
    (i : nat) : SearchState :=
  fold_left (fun st j => try_swap matrix st i j)
            (seq (i + 1) (n - 1 - (i + 1))) st.

Definition pass (matrix : DistanceMatrix) (n : nat) (route : list string)
    (cost : float) : SearchState :=
  fold_left (inner_loop matrix n) (seq 1 (n - 2 - 1))
            {| bestRoute := route; bestCost := cost; improved := false |}.

Fixpoint optimize2Opt_while (fuel : nat) (matrix : DistanceMatrix) (n : nat)
    (route : list string) (cost : float) : option (list string) :=
  match fuel with
  | O => None
  | S fuel' =>
      let st := pass matrix n route cost in
      if improved st
      then optimize2Opt_while fuel' matrix n (bestRoute st) (bestCost st)
      else Some (bestRoute st)
  end.

Definition optimize2Opt_fuel (fuel : nat) (route : list string)
    (matrix : DistanceMatrix) : option (list string) :=
  optimize2Opt_while fuel matrix (length route) route
                     (calculateRouteCost route matrix).

Definition optimize2Opt (route : list string) (matrix : DistanceMatrix)
  : list string :=
  match optimize2Opt_fuel (pass_bound route) route matrix with
  | Some r => r
  | None => route
  end.

(** The number of rearrangements of [route] whose computed cost is below
    [c]. *)
Definition cheaper_count (matrix : DistanceMatrix) (route : list string)
    (c : float) : nat :=
  length (filter (λ p, PrimFloat.ltb (calculateRouteCost p matrix) c)
                 (permutations route)).

(** What holds of the search state all along a pass that starts from
    [route]. *)
Definition pass_inv (matrix : DistanceMatrix) (route : list string)
    (st : SearchState) : Prop :=
  bestRoute st ≡ₚ route ∧
  head (bestRoute st) = head route ∧
  last (bestRoute st) = last route ∧
  bestCost st = calculateRouteCost (bestRoute st) matrix ∧
  (if improved st
   then PrimFloat.ltb (bestCost st) (calculateRouteCost route matrix) = true
   else st = {| bestRoute := route;
                bestCost := calculateRouteCost route matrix;
                improved := false |}).

Definition entry (meters seconds : float) (st : string) : DistanceMatrixElement :=
  {| distance := {| text := ""; value := meters |};
     duration := {| text := ""; value := seconds |};
     status := st |}.

Definition matrix_of (l : list (string * list (string * DistanceMatrixElement)))
  : DistanceMatrix :=
  list_to_map (map (fun '(k, row) => (k, list_to_map row)) l).

(** Two deliveries whose costs from the base, [0.63] and
    [0.6299999999999999], are the same rational [63/100]. *)
Definition near_tie : DistanceMatrix :=
  matrix_of [("B", [("D1", entry 0 54 "OK"); ("D2", entry 350 45 "OK")]);
             ("D1", [("B", entry 0 54 "OK"); ("D2", entry 1000 60 "OK")]);
             ("D2", [("B", entry 350 45 "OK"); ("D1", entry 1000 60 "OK")])].

(** A symmetric matrix on which the tour and its reverse, of the same
    rational cost [119/10], cost [11.9] and [11.899999999999999]. *)
Definition mirror : DistanceMatrix :=
  matrix_of [("B", [("D1", entry 1000 120 "OK"); ("D2", entry 5000 600 "OK")]);
             ("D1", [("B", entry 1000 120 "OK"); ("D2", entry 1000 120 "OK")]);
             ("D2", [("B", entry 5000 600 "OK"); ("D1", entry 1000 120 "OK")])].

End Binary64.

(** * The application around the solver *)

(** ** [App.tsx]: the list of locations *)

Record AppState : Type := {
  locations : list Location;
  distanceMatrix : DistanceMatrix;
  optimizedRoute : option OptimizedRoute;
  isOptimizing : bool
}.

(** [useState] initial values. *)
Definition initialState : AppState :=
  {| locations := []; distanceMatrix := ∅; optimizedRoute := None;
     isOptimizing := false |}.

Definition handleAddLocation (st : AppState) (location : Location) : AppState :=
  {| locations :=
       if truthy (isBase location)
       then filter (λ l, negb (truthy (isBase l))) (locations st) ++ [location]
       else locations st ++ [location];
     distanceMatrix := distanceMatrix st;
     optimizedRoute := optimizedRoute st;
     isOptimizing := isOptimizing st |}.

Definition handleRemoveLocation (st : AppState) (i : string) : AppState :=
  {| locations := filter (λ l, id l ≠ i) (locations st);
     distanceMatrix := ∅;
     optimizedRoute := None;
     isOptimizing := isOptimizing st |}.

(** What the user does to the list. *)
Inductive Action : Type :=
| AddLocation (location : Location)
| RemoveLocation (i : string).

Definition step (st : AppState) (a : Action) : AppState :=
  match a with
  | AddLocation location => handleAddLocation st location
  | RemoveLocation i => handleRemoveLocation st i
  end.

Definition run (actions : list Action) : AppState :=
  fold_left step actions initialState.

(** ** [googleMapsService.ts]: the simulated distances *)

Module GoogleMapsService.

(** [Math.round]: the nearest integer, halves going up. *)
Definition Math_round (x : Q) : Z := Qfloor (x + (1 # 2)).

(** [x.toFixed(1)] for [0 <= x]. *)
Definition toFixed1 (x : Q) : string :=
  let n := Qfloor (x * 10 + (1 # 2)) in
  pretty (n / 10)%Z +:+ "." +:+ pretty (n mod 10)%Z.

(** [Math.random()] is the next value of a sequence of draws [rnd]; a
    function that draws takes the index of the next draw and returns the
    index after its last one. *)
Definition simulateDistanceBetween (rnd : nat → Q) (n : nat)
    (from to : Location) : DistanceMatrixElement * nat :=
  if String.eqb (id from) (id to) then
    ({| distance := {| text := "0 m"; value := 0 |};
        duration := {| text := "0 mins"; value := 0 |};
        status := "OK" |}, n)
  else
    let baseDistance := rnd n * 20000 + 2000 in
    let trafficFactor := 1.2 + rnd (n + 1)%nat * 0.8 in
    let avgSpeed := 15 + rnd (n + 2)%nat * 10 in
    let baseTime := (baseDistance / 1000) * (3600 / avgSpeed) * trafficFactor in
    ({| distance := {| text := toFixed1 (baseDistance / 1000) +:+ " km";
                       value := inject_Z (Math_round baseDistance) |};
        duration := {| text := pretty (Math_round (baseTime / 60)) +:+ " mins";
                       value := inject_Z (Math_round baseTime) |};
        status := "OK" |}, (n + 3)%nat).

(** [matrix[a][b] = element], where [matrix[a]] is an object. *)
Definition set_entry (matrix : DistanceMatrix) (a b : string)
    (element : DistanceMatrixElement) : DistanceMatrix :=
  alter (insert b element) a matrix.

Definition simulateDistanceMatrix (rnd : nat → Q) (n : nat)
    (locations : list Location) : DistanceMatrix * nat :=
  fold_left
    (λ '(matrix, n) from,
       fold_left
         (λ '(matrix, n) to,
            let '(element, n') := simulateDistanceBetween rnd n from to in
            (set_entry matrix (id from) (id to) element, n'))
         locations
         (<[id from := ∅]> matrix, n))
    locations (∅, n).

Record DirectionsLeg : Type := {
  leg_distance : option Measure;
  leg_duration : option Measure
}.

Record RouteResult : Type := {
  optimizedOrder : list string;
  totalDistance : number;
  totalTime : number;
  waypoints : list DirectionsLeg
}.

(** The result is [null] when no location is flagged as base. *)
Definition getFallbackOptimizedRoute (rnd : nat → Q) (n : nat)
    (locations : list Location) : option RouteResult * nat :=
  let baseLocation := find (λ l, truthy (isBase l)) locations in
  let deliveryLocations := filter (λ l, negb (truthy (isBase l))) locations in
  match baseLocation with
  | None => (None, n)
  | Some baseLocation =>
      let count := inject_Z (Z.of_nat (length deliveryLocations)) in
      (Some {| optimizedOrder :=
                 id baseLocation :: map id deliveryLocations ++ [id baseLocation];
               totalDistance := Fin (count * 8 + rnd n * 10);
               totalTime := Fin (count * 15 + rnd (n + 1)%nat * 20);
               waypoints := [] |}, (n + 2)%nat)
  end.

(** What the Distance Matrix service hands to the callback. *)
Record ResponseElement : Type := {
  element_status : string;
  element_distance : option Measure;
  element_duration : option Measure
}.

Record ResponseRow : Type := {
  elements : list ResponseElement
}.

Record Response : Type := {
  rows : list ResponseRow
}.

(** What the service depends on and does not compute itself: the key of
    the build, whether the Maps script is loaded, and the answer of the
    Distance Matrix service to the request. *)
Record Environment : Type := {
  VITE_GOOGLE_MAPS_API_KEY : option string;
  google_loaded : bool;
  answer_status : string;
  answer_response : option Response
}.

(** Truthiness of
    [KEY && KEY !== 'YOUR_GOOGLE_MAPS_API_KEY_HERE']. *)
Definition isApiKeyConfigured (env : Environment) : bool :=
  match VITE_GOOGLE_MAPS_API_KEY env with
  | Some key =>
      negb (String.eqb key "") &&
      negb (String.eqb key "YOUR_GOOGLE_MAPS_API_KEY_HERE")
  | None => false
  end.

(** The body of the inner [forEach] of [getRealDistanceMatrix]. *)
Definition fill_entry (rnd : nat → Q) (response : Response)
    (originLocation : Location) (originIndex : nat)
    (acc : DistanceMatrix * nat) (dest : nat * Location)
  : DistanceMatrix * nat :=
  let '(matrix, n) := acc in
  let '(destIndex, destLocation) := dest in
  let element :=
    match rows response !! originIndex with
    | Some row => elements row !! destIndex
    | None => None
    end in
  let simulated :=
    let '(e, n') := simulateDistanceBetween rnd n originLocation destLocation in
    (set_entry matrix (id originLocation) (id destLocation) e, n') in
  match element with
  | Some element =>
      if String.eqb (element_status element) "OK" then
        match element_distance element, element_duration element with
        | Some d, Some t =>
            (set_entry matrix (id originLocation) (id destLocation)
               {| distance := {| text := text d; value := value d |};
                  duration := {| text := text t; value := value t |};
                  status := "OK" |}, n)
        | _, _ => simulated
        end
      else simulated
  | None => simulated
  end.

(** The body of the outer [forEach]. *)
Definition fill_row (rnd : nat → Q) (response : Response)
    (locations : list Location)
    (acc : DistanceMatrix * nat) (origin : nat * Location)
  : DistanceMatrix * nat :=
  let '(matrix, n) := acc in
  let '(originIndex, originLocation) := origin in
  let matrix :=
    match matrix !! id originLocation with
    | Some _ => matrix
    | None => <[id originLocation := ∅]> matrix
    end in
  fold_left (fill_entry rnd response originLocation originIndex)
            (zip (seq 0 (length locations)) locations) (matrix, n).

(** The error the promise is rejected with when the service does not
    answer OK with a response. *)
Definition rejection (status : string) : JsError :=
  if String.eqb status "REQUEST_DENIED" then
    Error "API key inválida o sin permisos para Distance Matrix API"
  else if String.eqb status "OVER_QUERY_LIMIT" then
    Error "Límite de consultas excedido. Intenta más tarde."
  else Error ("API error: " +:+ status).

Definition getRealDistanceMatrix (env : Environment) (rnd : nat → Q) (n : nat)
    (locations : list Location) : Outcome DistanceMatrix * nat :=
  if negb (google_loaded env) then
    (Threw (Error "Google Maps JavaScript API not loaded"), n)
  else
    match String.eqb (answer_status env) "OK", answer_response env with
    | true, Some response =>
        let '(matrix, n') :=
          fold_left (fill_row rnd response locations)
                    (zip (seq 0 (length locations)) locations) (∅, n) in
        (Returned matrix, n')
    | _, _ => (Threw (rejection (answer_status env)), n)
    end.

Definition getDistanceMatrix (env : Environment) (rnd : nat → Q) (n : nat)
    (locations : list Location) : DistanceMatrix * nat :=
  if (length locations =? 0)%nat then (∅, n)
  else if negb (isApiKeyConfigured env) then
    simulateDistanceMatrix rnd n locations
  else
    match getRealDistanceMatrix env rnd n locations with
    | (Returned matrix, n') => (matrix, n')
    | (Threw _, n') => simulateDistanceMatrix rnd n' locations
    end.

(** [e] is what [simulateDistanceBetween] returns for some pair of
    locations with the identifiers [a] and [b]. *)
Definition sim_entry (rnd : nat → Q) (a b : string)
    (e : DistanceMatrixElement) : Prop :=
  ∃ n from to,
    id from = a ∧ id to = b ∧ e = fst (simulateDistanceBetween rnd n from to).

(** The entry that [getRealDistanceMatrix] copies from the answer for the
    origin and destination at the given positions: the element there when
    it has status OK, a distance and a duration. *)
Definition usable (response : Response) (originIndex destIndex : nat)
  : option DistanceMatrixElement :=
  match rows response !! originIndex with
  | Some row =>
      match elements row !! destIndex with
      | Some element =>
          if String.eqb (element_status element) "OK" then
            match element_distance element, element_duration element with
            | Some d, Some t =>
                Some {| distance := {| text := text d; value := value d |};
                        duration := {| text := text t; value := value t |};
                        status := "OK" |}
            | _, _ => None
            end
          else None
      | None => None
      end
  | None => None
  end.

(** [e] is the entry of the answer for the positions, or where there is
    none a simulated entry for the two locations. *)
Definition answered_or_simulated (rnd : nat → Q) (response : Response)
    (originIndex : nat) (originLocation : Location)
    (destIndex : nat) (destLocation : Location)
    (e : DistanceMatrixElement) : Prop :=
  match usable response originIndex destIndex with
  | Some c => e = c
  | None => ∃ k, e = fst (simulateDistanceBetween rnd k originLocation destLocation)
  end.

End GoogleMapsService.

(** ** Matrices with an entry for every pair *)

(** Every entry of the matrix is under a key of [cols] and is good. *)
Definition entries_good (cols : list string)
    (G : string → string → DistanceMatrixElement → Prop)
    (matrix : DistanceMatrix) : Prop :=
  ∀ a b e, lookup2 matrix a b = Some e → b ∈ cols ∧ G a b e.

(** Row [a] of the matrix has an entry under every key of [cols]. *)
Definition row_complete (cols : list string) (matrix : DistanceMatrix)
    (a : string) : Prop :=
  ∀ b, b ∈ cols → is_Some (lookup2 matrix a b).

(** ** The statistics of the [DistanceMatrix] component *)

Definition calculateAverageDistance (matrix : DistanceMatrix)
    (locations : list Location) : Q :=
  let '(total, count) :=
    fold_left
      (λ acc from,
         fold_left
           (λ '(total, count) to,
              if negb (String.eqb (id from) (id to)) then
                match lookup2 matrix (id from) (id to) with
                | Some element =>
                    if status_ok element
                    then (total + value (distance element) / 1000, S count)
                    else (total, count)
                | None => (total, count)
                end
              else (total, count))
           locations acc)
      locations (0, 0%nat) in
  if (0 <? count)%nat then total / inject_Z (Z.of_nat count) else 0.

Definition calculateAverageTime (matrix : DistanceMatrix)
    (locations : list Location) : Q :=
  let '(total, count) :=
    fold_left
      (λ acc from,
         fold_left
           (λ '(total, count) to,
              if negb (String.eqb (id from) (id to)) then
                match lookup2 matrix (id from) (id to) with
                | Some element =>
                    if status_ok element
                    then (total + value (duration element) / 60, S count)
                    else (total, count)
                | None => (total, count)
                end
              else (total, count))
           locations acc)
      locations (0, 0%nat) in
  if (0 <? count)%nat then total / inject_Z (Z.of_nat count) else 0.

(** The entries that the averages are taken over: for each ordered pair of
    locations with different identifiers, in the order of the two loops,
    the entry of the pair when there is one with status OK. *)
Definition ok_entries (matrix : DistanceMatrix) (locations : list Location)
  : list DistanceMatrixElement :=
  from ← locations;
  to ← locations;
  if negb (String.eqb (id from) (id to)) then
    match lookup2 matrix (id from) (id to) with
    | Some element => if status_ok element then [element] else []
    | None => []
    end
  else [].

(** The mean of [f] over [es], summed from the left; [0] for no entry. *)
Definition mean_of (f : DistanceMatrixElement → Q)
    (es : list DistanceMatrixElement) : Q :=
  match es with
  | [] => 0
  | _ :: _ =>
      fold_left (λ total e, total + f e) es 0 / inject_Z (Z.of_nat (length es))
  end.

(** ** More fixtures *)

Definition two_bases : list Location :=
  [loc "D1" false; loc "B" true; loc "D2" false; loc "C" true].

Definition four_stops : list Location :=
  [loc "B" true; loc "D1" false; loc "D2" false; loc "D3" false].

(** A sequence of draws that are all one half. *)
Definition half (k : nat) : Q := 1 # 2.

(** A matrix with one OK entry between two different stops. *)
Definition one_leg : DistanceMatrix :=
  matrix_of [("D1", [("D2", entry 1500 300 "OK")])].

(** A matrix with entries, none of them an OK entry between two
    different stops. *)
Definition no_leg : DistanceMatrix :=
  matrix_of [("D1", [("D1", entry 0 0 "OK"); ("D2", entry 1500 300 "ZERO_RESULTS")])].

(** * Properties *)

(** ** The order on numbers *)

Lemma num_ltb_irrefl (a : number) : num_ltb a a = false.
Proof.
  destruct a as [x|]; simpl; [|done].
  apply negb_false_iff, Qle_bool_iff. lra.
Qed.

Lemma num_ltb_trans (a b c : number) :
  num_ltb a b = true → num_ltb b c = true → num_ltb a c = true.
Proof.
  destruct a as [x|], b as [y|], c as [z|]; simpl; try done.
  rewrite !negb_true_iff. intros Hxy Hyz.
  destruct (Qle_bool z x) eqn:Hzx; [|done].
  apply Qle_bool_iff in Hzx.
  assert (¬ y <= x) by (rewrite <- Qle_bool_iff; congruence).
  assert (¬ z <= y) by (rewrite <- Qle_bool_iff; congruence).
  lra.
Qed.

Lemma num_le_refl (a : number) : num_le a a.
Proof. destruct a; simpl; [lra | done]. Qed.

Lemma num_le_trans (a b c : number) : num_le a b → num_le b c → num_le a c.
Proof. destruct a, b, c; simpl; try done. lra. Qed.

Lemma num_ltb_le (a b : number) : num_ltb a b = true → num_le a b.
Proof.
  destruct a as [x|], b as [y|]; simpl; try done.
  rewrite negb_true_iff. intros H.
  assert (¬ y <= x) by (rewrite <- Qle_bool_iff; congruence). lra.
Qed.

Lemma num_ltb_false_le (a b : number) : num_ltb a b = false → num_le b a.
Proof.
  destruct a as [x|], b as [y|]; simpl; try done.
  rewrite negb_false_iff. apply Qle_bool_iff.
Qed.

(** ** Cost model *)

Lemma status_ok_true (e : DistanceMatrixElement) :
  status_ok e = true ↔ status e = "OK".
Proof. unfold status_ok. apply String.eqb_eq. Qed.

Lemma status_ok_false (e : DistanceMatrixElement) :
  status_ok e = false ↔ status e ≠ "OK".
Proof. unfold status_ok. apply String.eqb_neq. Qed.

(** C4: the cost of a pair is [Infinity] exactly when the directed entry is
    absent or its status is not OK; otherwise it is
    [0.3 * (meters / 1000) + 0.7 * (seconds / 60)], which is [0] for zero
    meters and zero seconds; and the cost depends on the matrix through
    the looked-up entry only. *)
Theorem calculateCost_spec (fromId toId : string) (matrix : DistanceMatrix) :
  (calculateCost fromId toId matrix = Infinity ↔
     lookup2 matrix fromId toId = None ∨
     ∃ e, lookup2 matrix fromId toId = Some e ∧ status e ≠ "OK") ∧
  (∀ e, lookup2 matrix fromId toId = Some e → status e = "OK" →
     calculateCost fromId toId matrix =
       Fin (0.3 * (value (distance e) / 1000) + 0.7 * (value (duration e) / 60)) ∧
     (value (distance e) == 0 → value (duration e) == 0 →
        num_eq (calculateCost fromId toId matrix) (Fin 0))) ∧
  (∀ matrix' : DistanceMatrix,
     lookup2 matrix' fromId toId = lookup2 matrix fromId toId →
     calculateCost fromId toId matrix' = calculateCost fromId toId matrix).
Proof.
  unfold calculateCost. split; [|split].
  - destruct (lookup2 matrix fromId toId) as [e|] eqn:He.
    + destruct (status_ok e) eqn:Hs; simpl.
      * split; [done|]. intros [?|(e' & ? & Hne)]; [done|].
        apply status_ok_false in Hne. congruence.
      * split; [|done]. intros _. right. exists e. split; [done|].
        by apply status_ok_false.
    + split; [|done]. by left.
  - intros e He Hs. rewrite He. apply status_ok_true in Hs. rewrite Hs. simpl.
    split; [done|]. intros Hd Ht. unfold num_eq. rewrite Hd, Ht.
    reflexivity.
  - intros matrix' ->. done.
Qed.

Lemma calculateCost_spec_witness :
  calculateCost "A" "B" zero_matrix =
    Fin (0.3 * (0 / 1000) + 0.7 * (0 / 60)) ∧
  (0 == 0 → 0 == 0 → num_eq (calculateCost "A" "B" zero_matrix) (Fin 0)).
Proof.
  apply (proj1 (proj2 (calculateCost_spec "A" "B" zero_matrix))
           (entry 0 0 "OK")); reflexivity.
Defined.

(** ** The degenerate case *)

Lemma optimizeRoute_short (locations : list Location)
    (matrix : DistanceMatrix) :
  (length locations ≤ 2)%nat →
  optimizeRoute locations matrix =
    Returned {| order := map id locations;
                totalDistance := Fin 0;
                totalTime := Fin 0;
                totalCost := Fin 0 |}.
Proof.
  intros Hlen. unfold optimizeRoute.
  by rewrite (proj2 (Nat.leb_le _ _) Hlen).
Qed.

(** C9: for at most two stops the result is the identifiers in input
    order with all three totals zero. *)
Theorem optimizeRoute_degenerate (locations : list Location)
    (matrix : DistanceMatrix) :
  (length locations ≤ 2)%nat →
  optimizeRoute locations matrix =
    Returned {| order := map id locations;
                totalDistance := Fin 0;
                totalTime := Fin 0;
                totalCost := Fin 0 |}.
Proof.
  intros Hlen. unfold optimizeRoute.
  destruct (length locations <=? 2)%nat eqn:Hguard; [done|].
  apply Nat.leb_gt in Hguard. lia.
Qed.

Lemma optimizeRoute_degenerate_witness :
  optimizeRoute [loc "D1" false; loc "B" true] scenario1 =
    Returned {| order := ["D1"; "B"];
                totalDistance := Fin 0;
                totalTime := Fin 0;
                totalCost := Fin 0 |}.
Proof.
  apply (optimizeRoute_degenerate [loc "D1" false; loc "B" true] scenario1).
  simpl. lia.
Defined.

(** ** Nearest-neighbour construction *)

Lemma num_lt_le_trans (a b c : number) :
  num_ltb a b = true → num_le b c → num_ltb a c = true.
Proof.
  destruct a as [x|], b as [y|], c as [z|]; simpl; try done.
  rewrite !negb_true_iff. intros Hxy Hyz.
  destruct (Qle_bool z x) eqn:Hzx; [|done].
  apply Qle_bool_iff in Hzx.
  assert (¬ y <= x) by (rewrite <- Qle_bool_iff; congruence).
  lra.
Qed.

Lemma num_not_lt_Infinity (a : number) : num_ltb a Infinity = false → a = Infinity.
Proof. by destruct a. Qed.

Section Scan.
Variable currentId : string.
Variable matrix : DistanceMatrix.

Let cost (u : Location) : number := calculateCost currentId (id u) matrix.

(** What the [for] loop leaves in [nearestIndex] and [minCost]: either
    nothing beat the initial [minCost], or the first of the cheapest
    candidates was chosen. *)
Lemma scan_spec (rest : list Location) :
  ∀ (i k : nat) (c : number),
    let r := scan currentId matrix rest i k c in
    (r = (k, c) ∧ ∀ u, u ∈ rest → num_ltb (cost u) c = false) ∨
    (∃ u, rest !! (fst r - i)%nat = Some u ∧ (i ≤ fst r)%nat ∧
          snd r = cost u ∧ num_ltb (snd r) c = true ∧
          (∀ j v, rest !! j = Some v → num_le (snd r) (cost v)) ∧
          (∀ j v, (j < fst r - i)%nat → rest !! j = Some v →
                  num_ltb (snd r) (cost v) = true)).
Proof.
  induction rest as [|u rest' IH]; intros i k c; simpl.
  - left. split; [done|]. intros u Hu. by apply elem_of_nil in Hu.
  - fold (cost u). destruct (num_ltb (cost u) c) eqn:Hlt.
    + right. destruct (IH (S i) i (cost u)) as [[Hr Hall]|(v & Hv & Hi & Hc & Hlt' & Hmin & Hfirst)].
      * rewrite Hr. simpl. exists u. rewrite Nat.sub_diag.
        repeat split; try done.
        -- intros [|j] v Hv; simpl in Hv.
           ++ injection Hv as <-. apply num_le_refl.
           ++ apply num_ltb_false_le, Hall. by eapply list_elem_of_lookup_2.
        -- intros j v Hj. lia.
      * exists v.
        replace (fst (scan currentId matrix rest' (S i) i (cost u)) - i)%nat
          with (S (fst (scan currentId matrix rest' (S i) i (cost u)) - S i))
          by lia.
        repeat split; try done.
        -- lia.
        -- by eapply num_ltb_trans.
        -- intros [|j] w Hw; simpl in Hw.
           ++ injection Hw as <-. by apply num_ltb_le.
           ++ by eapply Hmin.
        -- intros [|j] w Hj Hw; simpl in Hw.
           ++ by injection Hw as <-.
           ++ eapply Hfirst; [|done]. lia.
    + destruct (IH (S i) k c) as [[Hr Hall]|(v & Hv & Hi & Hc & Hlt' & Hmin & Hfirst)].
      * left. split; [done|]. intros w Hw.
        apply elem_of_cons in Hw as [->|Hw]; [done|by apply Hall].
      * right. exists v.
        replace (fst (scan currentId matrix rest' (S i) k c) - i)%nat
          with (S (fst (scan currentId matrix rest' (S i) k c) - S i))
          by lia.
        assert (num_ltb (snd (scan currentId matrix rest' (S i) k c)) (cost u) = true)
          as Hu by (eapply num_lt_le_trans; [done|by apply num_ltb_false_le]).
        repeat split; try done.
        -- lia.
        -- intros [|j] w Hw; simpl in Hw.
           ++ injection Hw as <-. by apply num_ltb_le.
           ++ by eapply Hmin.
        -- intros [|j] w Hj Hw; simpl in Hw.
           ++ by injection Hw as <-.
           ++ eapply Hfirst; [|done]. lia.
Qed.
End Scan.

(** The index chosen by a scan of a non-empty [unvisited]: it is in range,
    its cost is minimal, and every earlier candidate costs strictly more. *)
Lemma nearestIndex_spec (current : Location) (unvisited : list Location)
    (matrix : DistanceMatrix) :
  unvisited ≠ [] →
  ∃ nearest,
    unvisited !! nearestIndex current unvisited matrix = Some nearest ∧
    (∀ j v, unvisited !! j = Some v →
       num_le (calculateCost (id current) (id nearest) matrix)
              (calculateCost (id current) (id v) matrix)) ∧
    (∀ j v, (j < nearestIndex current unvisited matrix)%nat →
       unvisited !! j = Some v →
       num_ltb (calculateCost (id current) (id nearest) matrix)
               (calculateCost (id current) (id v) matrix) = true).
Proof.
  intros Hne. unfold nearestIndex.
  destruct (scan_spec (id current) matrix unvisited 0 0 Infinity)
    as [[Hr Hall]|(v & Hv & _ & Hc & _ & Hmin & Hfirst)].
  - rewrite Hr. simpl. destruct unvisited as [|u us]; [done|].
    exists u. split; [done|]. split; [|intros; lia].
    intros j v Hv.
    rewrite (num_not_lt_Infinity _ (Hall v (list_elem_of_lookup_2 _ _ _ Hv))).
    by destruct (calculateCost _ _ _).
  - rewrite Nat.sub_0_r in Hv, Hfirst. exists v. rewrite <- Hc. eauto.
Qed.

Lemma nn_while_eq (matrix : DistanceMatrix) (unvisited : list Location)
    (route : list string) (current : Location) :
  nn_while matrix unvisited route current =
    match unvisited with
    | [] => Returned route
    | _ :: _ =>
        match unvisited !! nearestIndex current unvisited matrix with
        | Some nearest =>
            nn_while matrix
              (delete (nearestIndex current unvisited matrix) unvisited)
              (route ++ [id nearest]) nearest
        | None => Threw (TypeError "Cannot read properties of undefined")
        end
    end.
Proof.
  destruct unvisited as [|u us]; simp nn_while; [done|].
  destruct (inspect _) as [[nearest|] Hn]; simp nn_while; by rewrite Hn.
Qed.

(** One turn of the [while] loop on a non-empty [unvisited]. *)
Lemma nn_while_step (matrix : DistanceMatrix) (unvisited : list Location)
    (route : list string) (current nearest : Location) :
  unvisited !! nearestIndex current unvisited matrix = Some nearest →
  nn_while matrix unvisited route current =
    nn_while matrix (delete (nearestIndex current unvisited matrix) unvisited)
             (route ++ [id nearest]) nearest.
Proof.
  intros Hn. rewrite nn_while_eq at 1. rewrite Hn.
  destruct unvisited; [by rewrite lookup_nil in Hn|done].
Qed.

(** The loop returns, having appended every unvisited stop once. *)
Lemma nn_while_returns (matrix : DistanceMatrix) (unvisited : list Location) :
  ∀ (route : list string) (current : Location),
    ∃ visited,
      nn_while matrix unvisited route current = Returned (route ++ map id visited) ∧
      visited ≡ₚ unvisited.
Proof.
  remember (length unvisited) as n eqn:Hn.
  revert unvisited Hn. induction n as [|n IH]; intros unvisited Hn route current.
  - destruct unvisited; [|done]. exists []. rewrite nn_while_eq.
    by rewrite app_nil_r.
  - destruct (nearestIndex_spec current unvisited matrix) as (nearest & Hk & _).
    { by destruct unvisited. }
    rewrite (nn_while_step _ _ _ _ _ Hk).
    destruct (IH (delete (nearestIndex current unvisited matrix) unvisited))
      with (route := route ++ [id nearest]) (current := nearest)
      as (visited & Hret & Hperm).
    { rewrite length_delete by eauto. lia. }
    exists (nearest :: visited). split.
    + rewrite Hret. by rewrite <- app_assoc.
    + rewrite Hperm. symmetry. by apply delete_Permutation.
Qed.

Lemma nearestNeighborTSP_returns (base : Location) (deliveries : list Location)
    (matrix : DistanceMatrix) :
  ∃ visited,
    nearestNeighborTSP base deliveries matrix =
      Returned (id base :: map id visited ++ [id base]) ∧
    visited ≡ₚ deliveries.
Proof.
  unfold nearestNeighborTSP.
  destruct (nn_while_returns matrix deliveries [id base] base)
    as (visited & -> & Hperm).
  by exists visited.
Qed.

(** ** The orchestrator: errors *)

Lemma find_head_filter (f : Location → bool) (l : list Location) :
  find f l = head (filter f l).
Proof.
  induction l as [|x l IH]; [done|]. simpl.
  destruct (f x) eqn:Hx.
  - rewrite filter_cons_True; [done|]. by apply Is_true_true.
  - rewrite filter_cons_False; [done|]. by apply Is_true_false.
Qed.

Lemma find_base_None (stops : list Location) :
  find (fun l => truthy (isBase l)) stops = None ↔
  ∀ l, l ∈ stops → isBase l ≠ Some true.
Proof.
  rewrite find_head_filter, head_None. split.
  - intros Hnil l Hl Hb.
    eapply (filter_nil_not_elem_of _ _ l Hnil); [|done].
    apply Is_true_true. by rewrite Hb.
  - intros Hall. induction stops as [|x stops IH]; [done|].
    rewrite filter_cons_False.
    + apply IH. intros l Hl. apply Hall. by right.
    + intros Hx. apply (Hall x); [by left|].
      apply Is_true_true in Hx. by destruct (isBase x) as [[|]|].
Qed.

(** C3 (amended): [optimizeRoute] throws exactly when there are more than
    two stops and none of them is flagged as base, and what it throws is
    the error "Base location not found"; with a flagged base, or with at
    most two stops, it returns for every matrix. *)
Theorem optimizeRoute_throws_iff (stops : list Location)
    (matrix : DistanceMatrix) (e : JsError) :
  optimizeRoute stops matrix = Threw e ↔
    (2 < length stops)%nat ∧
    (∀ l, l ∈ stops → isBase l ≠ Some true) ∧
    e = Error "Base location not found".
Proof.
  unfold optimizeRoute.
  destruct (length stops <=? 2)%nat eqn:Hlen.
  - apply Nat.leb_le in Hlen. split; [done|]. intros (? & _). lia.
  - apply Nat.leb_gt in Hlen.
    destruct (find _ stops) as [base|] eqn:Hfind.
    + destruct (nearestNeighborTSP_returns base
                  (filter (λ l, negb (truthy (isBase l))) stops) matrix)
        as (visited & -> & _).
      split; [done|]. intros (_ & Hnone & _).
      apply (proj2 (find_base_None stops)) in Hnone. congruence.
    + pose proof (proj1 (find_base_None stops) Hfind) as Hnone. split.
      * intros [= <-]. done.
      * by intros (_ & _ & ->).
Qed.

Lemma optimizeRoute_throws_iff_witness :
  optimizeRoute [loc "D1" false; loc "D2" false; loc "D3" false] ∅ =
    Threw (Error "Base location not found").
Proof.
  apply (optimizeRoute_throws_iff
           [loc "D1" false; loc "D2" false; loc "D3" false] ∅).
  split; [simpl; lia|]. split; [|reflexivity].
  intros l Hl. repeat (apply elem_of_cons in Hl as [->|Hl]; [done|]).
  by apply elem_of_nil in Hl.
Defined.

(** C3 as stated fails: two stops without a base are returned as they
    are, nothing is thrown. *)
Lemma optimizeRoute_no_base_returns :
  let stops := [loc "D1" false; loc "D2" false] in
  (∀ l, l ∈ stops → isBase l ≠ Some true) ∧
  ¬ ∃ e, optimizeRoute stops ∅ = Threw e.
Proof.
  split.
  - intros l Hl. repeat (apply elem_of_cons in Hl as [->|Hl]; [done|]).
    by apply elem_of_nil in Hl.
  - intros [e He]. vm_compute in He. discriminate He.
Qed.

(** ** The orchestrator: the tour *)

Lemma length_filter_flag (f : Location → bool) (l : list Location) :
  (length (filter (λ x, f x) l) + length (filter (λ x, negb (f x)) l))%nat
  = length l.
Proof.
  induction l as [|x l IH]; [done|].
  destruct (f x) eqn:Hx.
  - rewrite filter_cons_True by by apply Is_true_true.
    rewrite (filter_cons_False (λ x, negb (f x)))
      by (rewrite Hx; by intros []).
    simpl. lia.
  - rewrite filter_cons_False by by apply Is_true_false.
    rewrite (filter_cons_True (λ x, negb (f x))) by by rewrite Hx.
    simpl. lia.
Qed.

Lemma NoDup_map_id_inj (l : list Location) (x y : Location) :
  NoDup (map id l) → x ∈ l → y ∈ l → id x = id y → x = y.
Proof.
  induction l as [|z l IH]; intros Hnd Hx Hy Heq.
  - by apply elem_of_nil in Hx.
  - simpl in Hnd. apply NoDup_cons in Hnd as [Hz Hnd].
    apply elem_of_cons in Hx as [->|Hx], Hy as [->|Hy]; try done.
    + exfalso. apply Hz. rewrite Heq. apply list_elem_of_In, in_map.
      by apply list_elem_of_In.
    + exfalso. apply Hz. rewrite <- Heq. apply list_elem_of_In, in_map.
      by apply list_elem_of_In.
    + by apply IH.
Qed.

Lemma NoDup_map_id_filter (P : Location → Prop) `{∀ x, Decision (P x)}
    (l : list Location) :
  NoDup (map id l) → NoDup (map id (filter P l)).
Proof.
  induction l as [|z l IH]; intros Hnd; [done|].
  simpl in Hnd. apply NoDup_cons in Hnd as [Hz Hnd].
  destruct (decide (P z)).
  - rewrite filter_cons_True by done. simpl. apply NoDup_cons. split; [|auto].
    intros Hin. apply Hz.
    apply list_elem_of_In, in_map_iff in Hin as (w & Hw & Hin).
    apply list_elem_of_In, list_elem_of_filter in Hin as [_ Hin].
    rewrite <- Hw. apply list_elem_of_In, in_map. by apply list_elem_of_In.
  - rewrite filter_cons_False by done. auto.
Qed.

Lemma count_occ_NoDup_1 (l : list string) (x : string) :
  NoDup l → x ∈ l → count_occ String.string_dec l x = 1%nat.
Proof.
  intros Hnd Hx. apply list_elem_of_In in Hx. apply NoDup_ListNoDup in Hnd.
  by apply (proj1 (NoDup_count_occ' String.string_dec l) Hnd).
Qed.

(** C1 (amended): with more than two stops, exactly one of them flagged as
    base and distinct identifiers, the order returned by [optimizeRoute]
    starts and ends with the base identifier, contains the identifier of
    every other stop exactly once, and has one element more than there are
    stops. *)
Theorem optimizeRoute_tour (stops : list Location) (matrix : DistanceMatrix)
    (base : Location) :
  (2 < length stops)%nat →
  filter (λ l, truthy (isBase l)) stops = [base] →
  NoDup (map id stops) →
  ∃ r, optimizeRoute stops matrix = Returned r ∧
       head (order r) = Some (id base) ∧
       last (order r) = Some (id base) ∧
       (∀ s, s ∈ stops → isBase s ≠ Some true →
          count_occ String.string_dec (order r) (id s) = 1%nat) ∧
       length (order r) = S (length stops).
Proof.
  intros Hlen Hbase Hnd. unfold optimizeRoute.
  rewrite (proj2 (Nat.leb_gt _ _) Hlen).
  rewrite find_head_filter, Hbase. simpl.
  set (deliveries := filter (λ l, negb (truthy (isBase l))) stops).
  destruct (nearestNeighborTSP_returns base deliveries matrix)
    as (visited & -> & Hperm).
  eexists. split; [done|]. simpl.
  assert (base ∈ stops ∧ truthy (isBase base) = true) as [Hin Hflag].
  { assert (base ∈ filter (λ l, truthy (isBase l)) stops) as Hb
      by (rewrite Hbase; by left).
    apply list_elem_of_filter in Hb as [Hb ?]. split; [done|].
    by apply Is_true_true. }
  split; [done|]. split; [|split].
  - by rewrite app_comm_cons, last_snoc.
  - intros s Hs Hsflag.
    assert (id base ≠ id s) as Hne.
    { intros Heq. apply (NoDup_map_id_inj stops) in Heq; [|done..].
      subst s. by destruct (isBase base) as [[|]|]. }
    destruct (String.string_dec (id base) (id s)); [done|].
    rewrite count_occ_app. simpl.
    destruct (String.string_dec (id base) (id s)); [done|].
    rewrite Nat.add_0_r.
    rewrite (proj1 (Permutation_count_occ String.string_dec _ _)
               (Permutation_map id Hperm)).
    apply count_occ_NoDup_1.
    + by apply NoDup_map_id_filter.
    + apply list_elem_of_In, in_map, list_elem_of_In, list_elem_of_filter.
      split; [|done]. apply Is_true_true.
      by destruct (isBase s) as [[|]|].
  - rewrite length_app, length_map. simpl.
    rewrite (Permutation_length Hperm).
    pose proof (length_filter_flag (λ l, truthy (isBase l)) stops) as Hsplit.
    cbv beta in Hsplit. rewrite Hbase in Hsplit. simpl in Hsplit.
    unfold deliveries. lia.
Qed.

Lemma optimizeRoute_tour_witness :
  ∃ r, optimizeRoute three_stops scenario1 = Returned r ∧
       head (order r) = Some "B" ∧
       last (order r) = Some "B" ∧
       (∀ s, s ∈ three_stops → isBase s ≠ Some true →
          count_occ String.string_dec (order r) (id s) = 1%nat) ∧
       length (order r) = 4%nat.
Proof.
  apply (optimizeRoute_tour three_stops scenario1 (loc "B" true)).
  - simpl. lia.
  - reflexivity.
  - compute_done.
Defined.

(** C1 as stated fails for a base and a single delivery: the two
    identifiers are returned as they are, the tour is not closed. *)
Lemma optimizeRoute_two_stops_open :
  let stops := [loc "B" true; loc "D1" false] in
  filter (λ l, truthy (isBase l)) stops = [loc "B" true] ∧
  filter (λ l, negb (truthy (isBase l))) stops = [loc "D1" false] ∧
  NoDup (map id stops) ∧
  ∃ r, optimizeRoute stops scenario1 = Returned r ∧
       last (order r) ≠ Some "B" ∧
       length (order r) ≠ S (length stops).
Proof.
  simpl. split; [reflexivity|]. split; [reflexivity|]. split.
  - compute_done.
  - eexists. split; [reflexivity|]. simpl. split; [discriminate|lia].
Qed.

(** ** Comparisons of doubles *)

(** The laws of [<] and [<=] on doubles that the choice of the nearest
    stop and the 2-opt loop rest on.  They hold of [NaN] and of the
    infinities as well; only the totality of the order is stated of numbers
    that are not [NaN]. *)

Ltac sf_signs :=
  repeat match goal with
  | s : bool |- _ => destruct s
  end; simpl; try congruence.

Ltac sf_compare :=
  repeat match goal with
  | |- context [Z.compare ?a ?b] =>
      let H := fresh in destruct (Z.compare_spec a b) as [H|H|H]; [try subst | | ]
  | |- context [Pos.compare_cont Eq ?a ?b] =>
      change (Pos.compare_cont Eq a b) with (Pos.compare a b);
      let H := fresh in destruct (Pos.compare_spec a b) as [H|H|H]; [try subst | | ]
  end; simpl; try congruence; try lia.

Lemma SFleb_ltb_trans (a b c : spec_float) :
  SFleb a b = true → SFltb b c = true → SFltb a c = true.
Proof.
  unfold SFleb, SFltb, SFcompare.
  destruct a as [sa|sa| |sa ma ea], b as [sb|sb| |sb mb eb],
    c as [sc|sc| |sc mc ec]; sf_signs; sf_compare.
Qed.

Lemma SFltb_leb (a b : spec_float) : SFltb a b = true → SFleb a b = true.
Proof.
  unfold SFleb, SFltb. destruct (SFcompare a b) as [[]|]; congruence.
Qed.

Lemma SFltb_top (x y : spec_float) :
  SFltb x (S754_infinity false) = false →
  SFltb y (S754_infinity false) = false → SFltb y x = false.
Proof.
  unfold SFltb, SFcompare.
  destruct x as [sa|sa| |sa ma ea], y as [sb|sb| |sb mb eb]; sf_signs.
Qed.

Lemma SFleb_false_ltb (a b : spec_float) :
  SFleb a b = false → SFeqb a a = true → SFeqb b b = true → SFltb b a = true.
Proof.
  unfold SFleb, SFltb, SFeqb, SFcompare.
  destruct a as [sa|sa| |sa ma ea], b as [sb|sb| |sb mb eb]; sf_signs; sf_compare.
Qed.

Lemma SFltb_irrefl (a : spec_float) : SFltb a a = false.
Proof.
  unfold SFltb, SFcompare.
  destruct a as [sa|sa| |sa ma ea]; sf_signs; sf_compare.
Qed.

(** [a <= b] and [b < c] give [a < c]; none of the three is then [NaN]. *)
Lemma float_leb_ltb_trans (a b c : float) :
  PrimFloat.leb a b = true → PrimFloat.ltb b c = true → PrimFloat.ltb a c = true.
Proof. rewrite FloatAxioms.leb_spec, !FloatAxioms.ltb_spec. apply SFleb_ltb_trans. Qed.

Lemma float_ltb_leb (a b : float) : PrimFloat.ltb a b = true → PrimFloat.leb a b = true.
Proof. rewrite FloatAxioms.leb_spec, FloatAxioms.ltb_spec. apply SFltb_leb. Qed.

Lemma float_ltb_trans (a b c : float) :
  PrimFloat.ltb a b = true → PrimFloat.ltb b c = true → PrimFloat.ltb a c = true.
Proof. intros H. by apply float_leb_ltb_trans, float_ltb_leb. Qed.

Lemma float_ltb_irrefl (a : float) : PrimFloat.ltb a a = false.
Proof. rewrite FloatAxioms.ltb_spec. apply SFltb_irrefl. Qed.

(** Two numbers that are not below [Infinity] are [Infinity] or [NaN], and
    neither is below the other. *)
Lemma float_ltb_top (x y : float) :
  PrimFloat.ltb x infinity = false → PrimFloat.ltb y infinity = false →
  PrimFloat.ltb y x = false.
Proof. rewrite !FloatAxioms.ltb_spec. apply SFltb_top. Qed.

(** The order is total on the numbers that are not [NaN]. *)
Lemma float_leb_false_ltb (a b : float) :
  PrimFloat.leb a b = false → is_nan a = false → is_nan b = false →
  PrimFloat.ltb b a = true.
Proof.
  unfold is_nan. rewrite !negb_false_iff, FloatAxioms.leb_spec, FloatAxioms.ltb_spec, !FloatAxioms.eqb_spec.
  apply SFleb_false_ltb.
Qed.

Lemma SFltb_not_nan (a b : spec_float) : SFltb a b = true → SFeqb a a = true.
Proof.
  unfold SFltb, SFeqb, SFcompare.
  destruct a as [sa|sa| |sa ma ea], b as [sb|sb| |sb mb eb]; sf_signs; sf_compare.
Qed.

Lemma float_ltb_not_nan (a b : float) : PrimFloat.ltb a b = true → is_nan a = false.
Proof.
  unfold is_nan. rewrite negb_false_iff, FloatAxioms.ltb_spec, FloatAxioms.eqb_spec.
  apply SFltb_not_nan.
Qed.

Lemma float_ltb_asym (a b : float) :
  PrimFloat.ltb a b = true → PrimFloat.ltb b a = false.
Proof.
  intros Hab. destruct (PrimFloat.ltb b a) eqn:Hba; [|done].
  by rewrite <- (float_ltb_irrefl a), <- (float_ltb_trans _ _ _ Hab Hba).
Qed.

Lemma float_ltb_leb_false (a b : float) :
  PrimFloat.ltb a b = true → PrimFloat.leb b a = false.
Proof.
  intros Hab. destruct (PrimFloat.leb b a) eqn:Hba; [|done].
  by rewrite <- (float_ltb_irrefl b), <- (float_leb_ltb_trans _ _ _ Hba Hab).
Qed.

(** ** Nearest-neighbour construction: the choice at each step *)

(** The choice is a matter of which computed cost is below which: it is
    stated of the construction on doubles. *)

Section Scan64.
Variable currentId : string.
Variable matrix : Binary64.DistanceMatrix.

Let cost (u : Location) : float := Binary64.calculateCost currentId (id u) matrix.

(** What the [for] loop leaves in [nearestIndex] and [minCost]: either
    nothing was below the initial [minCost], or a candidate was chosen that
    no candidate is below and that no earlier candidate is as low as. *)
Lemma scan64_spec (rest : list Location) :
  ∀ (i k : nat) (c : float),
    let r := Binary64.scan currentId matrix rest i k c in
    (r = (k, c) ∧ ∀ u, u ∈ rest → PrimFloat.ltb (cost u) c = false) ∨
    (∃ u, rest !! (fst r - i)%nat = Some u ∧ (i ≤ fst r)%nat ∧
          snd r = cost u ∧ PrimFloat.ltb (snd r) c = true ∧
          (∀ j v, rest !! j = Some v → PrimFloat.ltb (cost v) (snd r) = false) ∧
          (∀ j v, (j < fst r - i)%nat → rest !! j = Some v →
                  PrimFloat.leb (cost v) (snd r) = false)).
Proof.
  induction rest as [|u rest' IH]; intros i k c; simpl.
  - left. split; [done|]. intros u Hu. by apply elem_of_nil in Hu.
  - fold (cost u). destruct (PrimFloat.ltb (cost u) c) eqn:Hlt.
    + right. destruct (IH (S i) i (cost u)) as [[Hr Hall]|(v & Hv & Hi & Hc & Hlt' & Hmin & Hfirst)].
      * rewrite Hr. simpl. exists u. rewrite Nat.sub_diag.
        repeat split; try done.
        -- intros [|j] v Hv; simpl in Hv.
           ++ injection Hv as <-. apply float_ltb_irrefl.
           ++ apply Hall. by eapply list_elem_of_lookup_2.
        -- intros j v Hj. lia.
      * exists v.
        replace (fst (Binary64.scan currentId matrix rest' (S i) i (cost u)) - i)%nat
          with (S (fst (Binary64.scan currentId matrix rest' (S i) i (cost u)) - S i))
          by lia.
        repeat split; try done.
        -- lia.
        -- by eapply float_ltb_trans.
        -- intros [|j] w Hw; simpl in Hw.
           ++ injection Hw as <-. by apply float_ltb_asym.
           ++ by eapply Hmin.
        -- intros [|j] w Hj Hw; simpl in Hw.
           ++ injection Hw as <-. by apply float_ltb_leb_false.
           ++ eapply Hfirst; [|done]. lia.
    + destruct (IH (S i) k c) as [[Hr Hall]|(v & Hv & Hi & Hc & Hlt' & Hmin & Hfirst)].
      * left. split; [done|]. intros w Hw.
        apply elem_of_cons in Hw as [->|Hw]; [done|by apply Hall].
      * right. exists v.
        replace (fst (Binary64.scan currentId matrix rest' (S i) k c) - i)%nat
          with (S (fst (Binary64.scan currentId matrix rest' (S i) k c) - S i))
          by lia.
        repeat split; try done.
        -- lia.
        -- intros [|j] w Hw; simpl in Hw.
           ++ injection Hw as <-.
              apply not_true_is_false. intros Hu.
              by rewrite (float_ltb_trans _ _ _ Hu Hlt') in Hlt.
           ++ by eapply Hmin.
        -- intros [|j] w Hj Hw; simpl in Hw.
           ++ injection Hw as <-.
              apply not_true_is_false. intros Hu.
              by rewrite (float_leb_ltb_trans _ _ _ Hu Hlt') in Hlt.
           ++ eapply Hfirst; [|done]. lia.
Qed.
End Scan64.

(** The index chosen by a scan of a non-empty [unvisited]: it is in range,
    no candidate is below the chosen one, no earlier candidate is as low,
    and a chosen candidate that is not the first is below [Infinity]. *)
Lemma nearestIndex64_spec (current : Location) (unvisited : list Location)
    (matrix : Binary64.DistanceMatrix) :
  unvisited ≠ [] →
  ∃ nearest,
    unvisited !! Binary64.nearestIndex current unvisited matrix = Some nearest ∧
    (∀ j v, unvisited !! j = Some v →
       PrimFloat.ltb (Binary64.calculateCost (id current) (id v) matrix)
                     (Binary64.calculateCost (id current) (id nearest) matrix)
       = false) ∧
    (∀ j v, (j < Binary64.nearestIndex current unvisited matrix)%nat →
       unvisited !! j = Some v →
       PrimFloat.leb (Binary64.calculateCost (id current) (id v) matrix)
                     (Binary64.calculateCost (id current) (id nearest) matrix)
       = false) ∧
    ((0 < Binary64.nearestIndex current unvisited matrix)%nat →
     PrimFloat.ltb (Binary64.calculateCost (id current) (id nearest) matrix)
                   infinity = true).
Proof.
  intros Hne. unfold Binary64.nearestIndex.
  destruct (scan64_spec (id current) matrix unvisited 0 0 infinity)
    as [[Hr Hall]|(v & Hv & _ & Hc & Hlt & Hmin & Hfirst)].
  - rewrite Hr. simpl. destruct unvisited as [|u us]; [done|].
    exists u. split; [done|]. split; [|split; intros; lia].
    intros j v Hv. apply float_ltb_top.
    + apply Hall. by left.
    + apply Hall. by eapply list_elem_of_lookup_2.
  - rewrite Nat.sub_0_r in Hv, Hfirst. exists v. rewrite <- Hc. eauto.
Qed.

Lemma nn_while64_eq (matrix : Binary64.DistanceMatrix) (unvisited : list Location)
    (route : list string) (current : Location) :
  Binary64.nn_while matrix unvisited route current =
    match unvisited with
    | [] => Returned route
    | _ :: _ =>
        match unvisited !! Binary64.nearestIndex current unvisited matrix with
        | Some nearest =>
            Binary64.nn_while matrix
              (delete (Binary64.nearestIndex current unvisited matrix) unvisited)
              (route ++ [id nearest]) nearest
        | None => Threw (TypeError "Cannot read properties of undefined")
        end
    end.
Proof.
  destruct unvisited as [|u us]; simp nn_while; [done|].
  destruct (inspect _) as [[nearest|] Hn]; simp nn_while; by rewrite Hn.
Qed.

Lemma nn_while64_step (matrix : Binary64.DistanceMatrix) (unvisited : list Location)
    (route : list string) (current nearest : Location) :
  unvisited !! Binary64.nearestIndex current unvisited matrix = Some nearest →
  Binary64.nn_while matrix unvisited route current =
    Binary64.nn_while matrix
      (delete (Binary64.nearestIndex current unvisited matrix) unvisited)
      (route ++ [id nearest]) nearest.
Proof.
  intros Hn. rewrite nn_while64_eq at 1. rewrite Hn.
  destruct unvisited; [by rewrite lookup_nil in Hn|done].
Qed.

(** The loop returns, having appended every unvisited stop once. *)
Lemma nn_while64_returns (matrix : Binary64.DistanceMatrix)
    (unvisited : list Location) :
  ∀ (route : list string) (current : Location),
    ∃ visited,
      Binary64.nn_while matrix unvisited route current
        = Returned (route ++ map id visited) ∧
      visited ≡ₚ unvisited.
Proof.
  remember (length unvisited) as n eqn:Hn.
  revert unvisited Hn. induction n as [|n IH]; intros unvisited Hn route current.
  - destruct unvisited; [|done]. exists []. rewrite nn_while64_eq.
    by rewrite app_nil_r.
  - destruct (nearestIndex64_spec current unvisited matrix) as (nearest & Hk & _).
    { by destruct unvisited. }
    rewrite (nn_while64_step _ _ _ _ _ Hk).
    destruct (IH (delete (Binary64.nearestIndex current unvisited matrix) unvisited))
      with (route := route ++ [id nearest]) (current := nearest)
      as (visited & Hret & Hperm).
    { rewrite length_delete by eauto. lia. }
    exists (nearest :: visited). split.
    + rewrite Hret. by rewrite <- app_assoc.
    + rewrite Hperm. symmetry. by apply delete_Permutation.
Qed.

Lemma nn_state64_inv (matrix : Binary64.DistanceMatrix) (base : Location)
    (deliveries unvisited : list Location) (route : list string)
    (current : Location) :
  Binary64.nn_state matrix base deliveries unvisited route current →
  unvisited `sublist_of` deliveries ∧
  Binary64.nn_while matrix unvisited route current =
    Binary64.nn_while matrix deliveries [id base] base.
Proof.
  induction 1 as [|unvisited route current nearest _ [IHsub IHeq] Hk].
  - done.
  - split.
    + etrans; [apply sublist_delete|done].
    + by rewrite <- IHeq, (nn_while64_step _ _ _ _ _ Hk).
Qed.

(** C5: at every step of the construction with stops left to visit, the
    stop taken out of [unvisited] (which keeps the order of [deliveries])
    and appended to the route is one that no candidate costs less than, on
    the costs as the program computes them in double precision; no
    candidate before it costs as little, so that every one of them whose
    cost is a number costs strictly more; and it is the first candidate
    when all costs are [Infinity].  The construction then goes on to return
    the route closed with the base identifier. *)
Theorem nearestNeighbor_step (matrix : Binary64.DistanceMatrix) (base : Location)
    (deliveries unvisited : list Location) (route : list string)
    (current : Location) :
  Binary64.nn_state matrix base deliveries unvisited route current →
  unvisited ≠ [] →
  let k := Binary64.nearestIndex current unvisited matrix in
  let cost := λ v, Binary64.calculateCost (id current) (id v) matrix in
  unvisited `sublist_of` deliveries ∧
  ∃ nearest visited,
    unvisited !! k = Some nearest ∧
    (∀ j v, unvisited !! j = Some v →
            PrimFloat.ltb (cost v) (cost nearest) = false) ∧
    (∀ j v, (j < k)%nat → unvisited !! j = Some v →
            PrimFloat.leb (cost v) (cost nearest) = false ∧
            (is_nan (cost v) = false →
             PrimFloat.ltb (cost nearest) (cost v) = true)) ∧
    ((∀ v, v ∈ unvisited → cost v = infinity) → k = 0%nat) ∧
    Binary64.nn_state matrix base deliveries (delete k unvisited)
             (route ++ [id nearest]) nearest ∧
    visited ≡ₚ delete k unvisited ∧
    Binary64.nearestNeighborTSP base deliveries matrix =
      Returned (route ++ id nearest :: map id visited ++ [id base]).
Proof.
  intros Hst Hne k cost.
  destruct (nn_state64_inv _ _ _ _ _ _ Hst) as [Hsub Heq].
  split; [done|].
  destruct (nearestIndex64_spec current unvisited matrix Hne)
    as (nearest & Hk & Hmin & Hfirst & Hfin).
  destruct (nn_while64_returns matrix (delete k unvisited)
              (route ++ [id nearest]) nearest) as (visited & Hret & Hperm).
  exists nearest, visited.
  split_and!; try done.
  - intros j v Hj Hv. split; [by eapply Hfirst|]. intros Hnan.
    apply float_leb_false_ltb; [by eapply Hfirst|done|].
    eapply float_ltb_not_nan, Hfin. fold k. lia.
  - intros Hinf. destruct k as [|k'] eqn:Ek; [done|]. exfalso.
    pose proof (Hinf nearest (list_elem_of_lookup_2 _ _ _ Hk)) as Hn.
    fold k in Hfin. rewrite Ek in Hfin. specialize (Hfin ltac:(lia)).
    unfold cost in Hn. by rewrite Hn in Hfin.
  - by constructor.
  - unfold Binary64.nearestNeighborTSP.
    rewrite <- Heq, (nn_while64_step _ _ _ _ _ Hk). fold k. rewrite Hret.
    by rewrite <- !app_assoc.
Qed.

Lemma nearestNeighbor_step_witness :
  let deliveries := [loc "D1" false; loc "D2" false] in
  let k := Binary64.nearestIndex (loc "B" true) deliveries Binary64.near_tie in
  let cost := λ v, Binary64.calculateCost "B" (id v) Binary64.near_tie in
  deliveries `sublist_of` deliveries ∧
  ∃ nearest visited,
    deliveries !! k = Some nearest ∧
    (∀ j v, deliveries !! j = Some v →
            PrimFloat.ltb (cost v) (cost nearest) = false) ∧
    (∀ j v, (j < k)%nat → deliveries !! j = Some v →
            PrimFloat.leb (cost v) (cost nearest) = false ∧
            (is_nan (cost v) = false →
             PrimFloat.ltb (cost nearest) (cost v) = true)) ∧
    ((∀ v, v ∈ deliveries → cost v = infinity) → k = 0%nat) ∧
    Binary64.nn_state Binary64.near_tie (loc "B" true) deliveries
             (delete k deliveries) (["B"] ++ [id nearest]) nearest ∧
    visited ≡ₚ delete k deliveries ∧
    Binary64.nearestNeighborTSP (loc "B" true) deliveries Binary64.near_tie =
      Returned (["B"] ++ id nearest :: map id visited ++ ["B"]).
Proof.
  apply (nearestNeighbor_step Binary64.near_tie (loc "B" true)
           [loc "D1" false; loc "D2" false]
           [loc "D1" false; loc "D2" false] ["B"] (loc "B" true)).
  - apply Binary64.nn_state_init.
  - discriminate.
Defined.

(** Two candidates of the same rational cost [63/100]: the program computes
    [0.63] for the first and [0.6299999999999999] for the second, and takes
    the second. *)
Example near_tie_construct :
  Binary64.calculateCost "B" "D1" Binary64.near_tie = 0x1.428f5c28f5c29p-1%float ∧
  Binary64.calculateCost "B" "D2" Binary64.near_tie = 0x1.428f5c28f5c28p-1%float ∧
  Binary64.nearestIndex (loc "B" true) [loc "D1" false; loc "D2" false]
    Binary64.near_tie = 1%nat ∧
  Binary64.nearestNeighborTSP (loc "B" true) [loc "D1" false; loc "D2" false]
    Binary64.near_tie = Returned ["B"; "D2"; "D1"; "B"].
Proof. vm_compute. done. Qed.

(** ** Totals *)

Lemma legs_cons2 (a b : string) (rest : list string) :
  legs (a :: b :: rest) = (a, b) :: legs (b :: rest).
Proof. done. Qed.

Lemma totals_step_ok (matrix : DistanceMatrix) (acc : Totals) (a b : string) :
  leg_ok matrix (a, b) = true →
  sumCost (totals_step matrix acc a b) =
    num_add (sumCost acc) (calculateCost a b matrix).
Proof.
  unfold leg_ok, totals_step. simpl.
  destruct (lookup2 matrix a b) as [e|]; [|done]. by intros ->.
Qed.

Lemma totals_step_skip (matrix : DistanceMatrix) (acc : Totals) (a b : string) :
  leg_ok matrix (a, b) = false → totals_step matrix acc a b = acc.
Proof.
  unfold leg_ok, totals_step. simpl.
  destruct (lookup2 matrix a b) as [e|]; [|done]. by intros ->.
Qed.

Lemma leg_ok_false (matrix : DistanceMatrix) (a b : string) :
  leg_ok matrix (a, b) = false ↔
  lookup2 matrix a b = None ∨
  ∃ e, lookup2 matrix a b = Some e ∧ status e ≠ "OK".
Proof.
  unfold leg_ok. simpl. destruct (lookup2 matrix a b) as [e|].
  - rewrite status_ok_false. split.
    + intros He. right. by exists e.
    + intros [?|(e' & [= <-] & ?)]; done.
  - split; [by left|done].
Qed.

(** The cost accumulated by [calculateRouteTotals] is the sum over the
    legs that have an OK entry. *)
Lemma totals_loop_sumCost (matrix : DistanceMatrix) (order : list string) :
  ∀ acc,
    sumCost (totals_loop matrix acc order) =
      fold_left (λ c p, num_add c (calculateCost (fst p) (snd p) matrix))
                (filter (λ p, leg_ok matrix p) (legs order)) (sumCost acc).
Proof.
  induction order as [|a [|b rest] IH]; intros acc; [done..|].
  rewrite legs_cons2. change (totals_loop matrix acc (a :: b :: rest))
    with (totals_loop matrix (totals_step matrix acc a b) (b :: rest)).
  rewrite IH. destruct (leg_ok matrix (a, b)) eqn:Hok.
  - rewrite filter_cons_True by by apply Is_true_true.
    simpl. by rewrite totals_step_ok.
  - rewrite filter_cons_False by by apply Is_true_false.
    by rewrite totals_step_skip.
Qed.

Lemma cost_loop_legs (matrix : DistanceMatrix) (route : list string) :
  ∀ c,
    cost_loop matrix c route =
      fold_left (λ c p, num_add c (calculateCost (fst p) (snd p) matrix))
                (legs route) c.
Proof.
  induction route as [|a [|b rest] IH]; intros c; [done..|].
  rewrite legs_cons2. simpl fold_left. rewrite <- IH. done.
Qed.

Lemma filter_all_true {A} (f : A → bool) (l : list A) :
  Forall (λ x, f x = true) l → filter (λ x, f x) l = l.
Proof.
  induction 1 as [|x l Hx _ IH]; [done|].
  rewrite filter_cons_True by by apply Is_true_true. by rewrite IH.
Qed.

Lemma optimizeRoute_with_base (stops : list Location)
    (matrix : DistanceMatrix) :
  (2 < length stops)%nat →
  (∃ l, l ∈ stops ∧ isBase l = Some true) →
  ∃ base visited,
    let order := id base :: map id visited ++ [id base] in
    optimizeRoute stops matrix =
      Returned {| order := order;
                  totalDistance := sumDistance (calculateRouteTotals order matrix);
                  totalTime := sumTime (calculateRouteTotals order matrix);
                  totalCost := sumCost (calculateRouteTotals order matrix) |}.
Proof.
  intros Hlen (b & Hb & Hflag). unfold optimizeRoute.
  rewrite (proj2 (Nat.leb_gt _ _) Hlen).
  destruct (find _ stops) as [base|] eqn:Hfind.
  - destruct (nearestNeighborTSP_returns base
                (filter (λ l, negb (truthy (isBase l))) stops) matrix)
      as (visited & -> & _).
    by exists base, visited.
  - by destruct (proj1 (find_base_None stops) Hfind b Hb).
Qed.

Lemma optimizeRoute_returned (stops : list Location) (matrix : DistanceMatrix)
    (r : OptimizedRoute) :
  (2 < length stops)%nat →
  optimizeRoute stops matrix = Returned r →
  totalDistance r = sumDistance (calculateRouteTotals (order r) matrix) ∧
  totalTime r = sumTime (calculateRouteTotals (order r) matrix) ∧
  totalCost r = sumCost (calculateRouteTotals (order r) matrix).
Proof.
  intros Hlen. unfold optimizeRoute. rewrite (proj2 (Nat.leb_gt _ _) Hlen).
  destruct (find _ stops) as [base|]; [|done].
  destruct (nearestNeighborTSP _ _ _) as [o|]; [|done].
  by intros [= <-].
Qed.

(** C7 (amended): with more than two stops and a flagged base,
    [totalCost] is the sum of the Cost-Model values of the consecutive
    pairs of the returned order that have an OK entry in the matrix; it is
    the sum over every consecutive pair, the route cost, when all of them
    have one. *)
Theorem optimizeRoute_totalCost (stops : list Location)
    (matrix : DistanceMatrix) :
  (2 < length stops)%nat →
  (∃ l, l ∈ stops ∧ isBase l = Some true) →
  ∃ r, optimizeRoute stops matrix = Returned r ∧
       totalCost r =
         sum_costs matrix (filter (λ p, leg_ok matrix p) (legs (order r))) ∧
       calculateRouteCost (order r) matrix = sum_costs matrix (legs (order r)) ∧
       (Forall (λ p, leg_ok matrix p = true) (legs (order r)) →
        totalCost r = calculateRouteCost (order r) matrix).
Proof.
  intros Hlen (b & Hb & Hflag).
  destruct (optimizeRoute_with_base stops matrix Hlen)
    as (base & visited & Hr); [by exists b|].
  eexists. split; [exact Hr|]. simpl.
  set (order := id base :: map id visited ++ [id base]).
  assert (sumCost (calculateRouteTotals order matrix) =
    sum_costs matrix (filter (λ p, leg_ok matrix p) (legs order))) as Hsum.
  { unfold calculateRouteTotals. by rewrite totals_loop_sumCost. }
  assert (calculateRouteCost order matrix = sum_costs matrix (legs order))
    as Hcost by apply cost_loop_legs.
  split_and!; [done..|].
  intros Hall. by rewrite Hsum, Hcost, filter_all_true.
Qed.

Lemma optimizeRoute_totalCost_witness :
  ∃ r, optimizeRoute three_stops scenario1 = Returned r ∧
       totalCost r =
         sum_costs scenario1 (filter (λ p, leg_ok scenario1 p) (legs (order r))) ∧
       calculateRouteCost (order r) scenario1 =
         sum_costs scenario1 (legs (order r)) ∧
       (Forall (λ p, leg_ok scenario1 p = true) (legs (order r)) →
        totalCost r = calculateRouteCost (order r) scenario1).
Proof.
  apply (optimizeRoute_totalCost three_stops scenario1).
  - simpl. lia.
  - exists (loc "B" true). split; [|reflexivity]. right. left.
Defined.

(** C7 as stated fails: with no entry in the matrix every leg of the tour
    costs [Infinity], and [totalCost] is [0]. *)
Lemma optimizeRoute_totalCost_skips_missing :
  (2 < length three_stops)%nat ∧
  (∃ l, l ∈ three_stops ∧ isBase l = Some true) ∧
  ∃ r, optimizeRoute three_stops ∅ = Returned r ∧
       totalCost r = Fin 0 ∧
       calculateRouteCost (order r) ∅ = Infinity ∧
       sum_costs ∅ (legs (order r)) = Infinity.
Proof.
  split; [simpl; lia|]. split.
  - exists (loc "B" true). split; [right; left|reflexivity].
  - eexists. split; [reflexivity|]. by vm_compute.
Qed.

(** C10: whenever [optimizeRoute] returns, the three totals are finite; a
    consecutive pair whose entry is absent or not OK leaves all three sums
    as they were. *)
Theorem optimizeRoute_totals_finite (stops : list Location)
    (matrix : DistanceMatrix) (r : OptimizedRoute) :
  optimizeRoute stops matrix = Returned r →
  (is_finite (totalDistance r) = true ∧
   is_finite (totalTime r) = true ∧
   is_finite (totalCost r) = true) ∧
  (∀ acc a b,
     lookup2 matrix a b = None ∨
     (∃ e, lookup2 matrix a b = Some e ∧ status e ≠ "OK") →
     totals_step matrix acc a b = acc).
Proof.
  intros Hr. split.
  - assert (∀ order acc,
      is_finite (sumDistance acc) = true ∧ is_finite (sumTime acc) = true ∧
      is_finite (sumCost acc) = true →
      is_finite (sumDistance (totals_loop matrix acc order)) = true ∧
      is_finite (sumTime (totals_loop matrix acc order)) = true ∧
      is_finite (sumCost (totals_loop matrix acc order)) = true) as Hloop.
    { intros order. induction order as [|a [|b rest] IH]; intros acc Hacc;
        [done..|].
      change (totals_loop matrix acc (a :: b :: rest))
        with (totals_loop matrix (totals_step matrix acc a b) (b :: rest)).
      apply IH. unfold totals_step, calculateCost.
      destruct (lookup2 matrix a b) as [e|]; [|done].
      destruct (status_ok e); [|done]. simpl.
      destruct Hacc as (Hd & Ht & Hc).
      by destruct (sumDistance acc), (sumTime acc), (sumCost acc). }
    destruct (decide (length stops ≤ 2)%nat) as [Hlen|Hlen].
    + rewrite optimizeRoute_short in Hr by done. by injection Hr as <-.
    + destruct (optimizeRoute_returned stops matrix r ltac:(lia) Hr)
        as (-> & -> & ->).
      by apply Hloop.
  - intros acc a b Hmissing. by apply totals_step_skip, leg_ok_false.
Qed.

Lemma optimizeRoute_totals_finite_witness :
  (is_finite (Fin 0) = true ∧ is_finite (Fin 0) = true ∧
   is_finite (Fin 0) = true) ∧
  (∀ acc a b,
     lookup2 (∅ : DistanceMatrix) a b = None ∨
     (∃ e, lookup2 (∅ : DistanceMatrix) a b = Some e ∧ status e ≠ "OK") →
     totals_step ∅ acc a b = acc).
Proof.
  apply (optimizeRoute_totals_finite three_stops ∅
           {| order := ["B"; "D1"; "D2"; "B"];
              totalDistance := Fin 0;
              totalTime := Fin 0;
              totalCost := Fin 0 |}).
  reflexivity.
Defined.

(** ** 2-opt: one move *)

Lemma swap2Opt_Permutation (route : list string) (i j : nat) :
  (i ≤ j)%nat → swap2Opt route i j ≡ₚ route.
Proof.
  intros Hij. unfold swap2Opt.
  rewrite <- Permutation_rev.
  rewrite <- (drop_drop route (j + 1 - i) i), take_drop.
  by rewrite take_drop.
Qed.

Lemma swap2Opt_head (route : list string) (i j : nat) :
  (1 ≤ i)%nat → head (swap2Opt route i j) = head route.
Proof.
  intros Hi. unfold swap2Opt. destruct i as [|i]; [lia|].
  destruct route as [|x route]; [|done].
  by rewrite take_nil, drop_nil, take_nil, drop_nil.
Qed.

Lemma swap2Opt_last (route : list string) (i j : nat) :
  (i ≤ j)%nat → (j + 1 < length route)%nat →
  last (swap2Opt route i j) = last route.
Proof.
  intros Hij Hj. unfold swap2Opt.
  replace (i + (j + 1 - i))%nat with (j + 1)%nat by lia.
  assert (is_Some (last (drop (j + 1) route))) as [y Hy].
  { apply last_is_Some. intros Hnil. apply drop_nil_inv in Hnil. lia. }
  rewrite !last_app, Hy.
  rewrite <- (take_drop (j + 1) route) at 1. by rewrite last_app, Hy.
Qed.

(** ** 2-opt: one pass *)

Lemma fold_left_inv {A B} (P : A → Prop) (f : A → B → A) (l : list B) :
  (∀ a x, x ∈ l → P a → P (f a x)) → ∀ a, P a → P (fold_left f l a).
Proof.
  induction l as [|x l IH]; intros Hf a Ha; [done|].
  simpl. apply IH.
  - intros a' y Hy. apply Hf. by right.
  - apply Hf; [by left|done].
Qed.

Section Pass.
Variable matrix : DistanceMatrix.
Variable route : list string.

Let n := length route.
Let cost := calculateRouteCost route matrix.
Let start : SearchState :=
  {| bestRoute := route; bestCost := cost; improved := false |}.

Lemma pass_inv_start : pass_inv matrix route start.
Proof. done. Qed.

Lemma try_swap_inv (st : SearchState) (i j : nat) :
  (1 ≤ i)%nat → (i ≤ j)%nat → (j + 1 < n)%nat →
  pass_inv matrix route st → pass_inv matrix route (try_swap matrix st i j).
Proof.
  intros Hi Hij Hj (Hperm & Hhead & Hlast & Hcost & Himp).
  unfold try_swap.
  destruct (num_ltb _ (bestCost st)) eqn:Hlt; [|done].
  assert (length (bestRoute st) = n) as Hlen by by rewrite Hperm.
  split; [|split; [|split; [|split]]]; simpl.
  - by rewrite swap2Opt_Permutation.
  - by rewrite swap2Opt_head.
  - rewrite swap2Opt_last; [done..|lia].
  - done.
  - destruct (improved st).
    + exact (num_ltb_trans _ _ _ Hlt Himp).
    + rewrite Himp in Hlt |- *. exact Hlt.
Qed.

Lemma inner_loop_inv (st : SearchState) (i : nat) :
  (1 ≤ i)%nat → pass_inv matrix route st →
  pass_inv matrix route (inner_loop matrix n st i).
Proof.
  intros Hi. unfold inner_loop. apply fold_left_inv.
  intros st' j Hj. apply elem_of_seq in Hj.
  apply try_swap_inv; lia.
Qed.

Lemma pass_pass_inv : pass_inv matrix route (pass matrix n route cost).
Proof.
  unfold pass. apply fold_left_inv; [|apply pass_inv_start].
  intros st i Hi. apply elem_of_seq in Hi. apply inner_loop_inv. lia.
Qed.
End Pass.

(** ** 2-opt: the loop *)

Lemma pass_not_improved (matrix : DistanceMatrix) (route : list string) :
  let st := pass matrix (length route) route (calculateRouteCost route matrix) in
  improved st = false →
  st = {| bestRoute := route;
          bestCost := calculateRouteCost route matrix;
          improved := false |}.
Proof.
  intros st Himp.
  destruct (pass_pass_inv matrix route) as (_ & _ & _ & _ & Hst).
  fold st in Hst. by rewrite Himp in Hst.
Qed.

Lemma pass_improved (matrix : DistanceMatrix) (route : list string) :
  let st := pass matrix (length route) route (calculateRouteCost route matrix) in
  improved st = true →
  bestRoute st ≡ₚ route ∧
  head (bestRoute st) = head route ∧
  last (bestRoute st) = last route ∧
  bestCost st = calculateRouteCost (bestRoute st) matrix ∧
  num_ltb (bestCost st) (calculateRouteCost route matrix) = true.
Proof.
  intros st Himp.
  destruct (pass_pass_inv matrix route) as (? & ? & ? & ? & Hst).
  fold st in Hst. by rewrite Himp in Hst.
Qed.

(** What the loop returns, when it returns. *)
Lemma optimize2Opt_while_spec (matrix : DistanceMatrix) (fuel : nat) :
  ∀ route out,
    optimize2Opt_while fuel matrix (length route) route
                       (calculateRouteCost route matrix) = Some out →
    out ≡ₚ route ∧
    head out = head route ∧
    last out = last route ∧
    num_le (calculateRouteCost out matrix) (calculateRouteCost route matrix) ∧
    improved (pass matrix (length out) out (calculateRouteCost out matrix))
      = false.
Proof.
  induction fuel as [|fuel IH]; intros route out; [done|]. simpl.
  pose proof (pass_improved matrix route) as Hyes.
  pose proof (pass_not_improved matrix route) as Hno.
  set (st := pass matrix (length route) route
                  (calculateRouteCost route matrix)) in *.
  simpl in Hyes, Hno. destruct (improved st) eqn:Himp.
  - destruct (Hyes eq_refl) as (Hperm & Hhead & Hlast & Hcost & Hlt).
    rewrite Hcost, <- (Permutation_length Hperm). intros Hout.
    destruct (IH _ _ Hout) as (Hperm' & Hhead' & Hlast' & Hle & Hfix).
    split_and!; [by etrans|congruence|congruence| |done].
    eapply num_le_trans; [done|]. apply num_ltb_le. by rewrite <- Hcost.
  - rewrite (Hno eq_refl). simpl. intros [= <-].
    split_and!; [done..|apply num_le_refl|exact Himp].
Qed.

Lemma optimize2Opt_while_more_fuel (matrix : DistanceMatrix) (n fuel : nat) :
  ∀ route cost out k,
    optimize2Opt_while fuel matrix n route cost = Some out →
    optimize2Opt_while (fuel + k) matrix n route cost = Some out.
Proof.
  induction fuel as [|fuel IH]; intros route cost out k; [done|]. simpl.
  destruct (improved _); [apply IH|done].
Qed.

Lemma length_filter_lt_sub {A} (P Q : A → bool) (l : list A) (y : A) :
  (∀ x, Q x = true → P x = true) →
  y ∈ l → P y = true → Q y = false →
  (length (filter (λ x, Q x) l) < length (filter (λ x, P x) l))%nat.
Proof.
  intros HQP Hy HP HQ.
  assert (∀ l', length (filter (λ x, Q x) l') ≤ length (filter (λ x, P x) l'))
    as Hle.
  { induction l' as [|x l' IH]; [done|].
    destruct (Q x) eqn:Hx.
    - rewrite !filter_cons_True
        by (apply Is_true_true; auto). simpl. lia.
    - rewrite (filter_cons_False (λ x, Q x)) by by apply Is_true_false.
      destruct (P x) eqn:Hx'.
      + rewrite filter_cons_True by by apply Is_true_true. simpl. lia.
      + by rewrite filter_cons_False by by apply Is_true_false. }
  induction l as [|x l IH]; [by apply elem_of_nil in Hy|].
  apply elem_of_cons in Hy as [<-|Hy].
  - rewrite filter_cons_False by by apply Is_true_false.
    rewrite (filter_cons_True (λ x, P x)) by by apply Is_true_true.
    simpl. specialize (Hle l). lia.
  - specialize (IH Hy). destruct (Q x) eqn:Hx.
    + rewrite !filter_cons_True by (apply Is_true_true; auto). simpl. lia.
    + rewrite (filter_cons_False (λ x, Q x)) by by apply Is_true_false.
      destruct (P x) eqn:Hx'.
      * rewrite filter_cons_True by by apply Is_true_true. simpl. lia.
      * by rewrite filter_cons_False by by apply Is_true_false.
Qed.

(** A strictly cheaper rearrangement leaves strictly fewer rearrangements
    below it. *)
Lemma cheaper_count_decreases (matrix : DistanceMatrix)
    (route0 route' : list string) (c : number) :
  route' ≡ₚ route0 →
  num_ltb (calculateRouteCost route' matrix) c = true →
  (cheaper_count matrix route0 (calculateRouteCost route' matrix)
   < cheaper_count matrix route0 c)%nat.
Proof.
  intros Hperm Hlt. unfold cheaper_count.
  apply (length_filter_lt_sub
           (λ p, num_ltb (calculateRouteCost p matrix) c)
           (λ p, num_ltb (calculateRouteCost p matrix)
                         (calculateRouteCost route' matrix))
           _ route').
  - intros p Hp. by eapply num_ltb_trans.
  - by apply permutations_Permutation.
  - done.
  - apply num_ltb_irrefl.
Qed.

(** The loop returns within as many passes as there are rearrangements
    cheaper than the route it starts from, plus one. *)
Lemma optimize2Opt_while_terminates (matrix : DistanceMatrix)
    (route0 : list string) (fuel : nat) :
  ∀ route,
    route ≡ₚ route0 →
    (cheaper_count matrix route0 (calculateRouteCost route matrix) < fuel)%nat →
    ∃ out,
      optimize2Opt_while fuel matrix (length route) route
                         (calculateRouteCost route matrix) = Some out.
Proof.
  induction fuel as [|fuel IH]; intros route Hperm Hfuel; [lia|]. simpl.
  pose proof (pass_improved matrix route) as Hyes.
  set (st := pass matrix (length route) route
                  (calculateRouteCost route matrix)) in *.
  simpl in Hyes. destruct (improved st) eqn:Himp; [|by eexists].
  destruct (Hyes eq_refl) as (Hperm' & _ & _ & Hcost & Hlt).
  rewrite Hcost, <- (Permutation_length Hperm'). apply IH.
  - by etrans.
  - rewrite Hcost in Hlt.
    pose proof (cheaper_count_decreases matrix route0 _ _
                  (transitivity Hperm' Hperm) Hlt).
    lia.
Qed.

Lemma cheaper_count_bound (matrix : DistanceMatrix) (route : list string)
    (c : number) :
  (cheaper_count matrix route c < pass_bound route)%nat.
Proof.
  unfold cheaper_count, pass_bound.
  pose proof (length_filter
    (λ p, num_ltb (calculateRouteCost p matrix) c) (permutations route)).
  lia.
Qed.

Lemma optimize2Opt_fuel_bound (route : list string) (matrix : DistanceMatrix) :
  optimize2Opt_fuel (pass_bound route) route matrix =
    Some (optimize2Opt route matrix).
Proof.
  unfold optimize2Opt.
  destruct (optimize2Opt_while_terminates matrix route (pass_bound route) route)
    as [out Hout]; [done|apply cheaper_count_bound|].
  unfold optimize2Opt_fuel. by rewrite Hout.
Qed.

(** C8: the pass loop of [optimize2Opt] ends, for every route and every
    matrix: [pass_bound route] passes, or any larger number of them, are
    enough for it to return. *)
Theorem optimize2Opt_terminates (route : list string) (matrix : DistanceMatrix) :
  ∃ out,
    optimize2Opt_fuel (pass_bound route) route matrix = Some out ∧
    ∀ k, optimize2Opt_fuel (pass_bound route + k) route matrix = Some out.
Proof.
  exists (optimize2Opt route matrix).
  split; [apply optimize2Opt_fuel_bound|].
  intros k. apply optimize2Opt_while_more_fuel, optimize2Opt_fuel_bound.
Qed.

(** C6: the refined route has the first and the last element of the input
    route and is a rearrangement of it. *)
Theorem optimize2Opt_preserves (route : list string) (matrix : DistanceMatrix) :
  optimize2Opt_fuel (pass_bound route) route matrix =
    Some (optimize2Opt route matrix) ∧
  head (optimize2Opt route matrix) = head route ∧
  last (optimize2Opt route matrix) = last route ∧
  optimize2Opt route matrix ≡ₚ route.
Proof.
  pose proof (optimize2Opt_fuel_bound route matrix) as Hout.
  destruct (optimize2Opt_while_spec matrix _ _ _ Hout) as (? & ? & ? & _).
  done.
Qed.

(** C2: the refined route costs no more than the input route, and refining
    it again returns it unchanged. *)
Theorem optimize2Opt_cost (route : list string) (matrix : DistanceMatrix) :
  optimize2Opt_fuel (pass_bound route) route matrix =
    Some (optimize2Opt route matrix) ∧
  num_le (calculateRouteCost (optimize2Opt route matrix) matrix)
         (calculateRouteCost route matrix) ∧
  optimize2Opt (optimize2Opt route matrix) matrix = optimize2Opt route matrix.
Proof.
  pose proof (optimize2Opt_fuel_bound route matrix) as Hout.
  destruct (optimize2Opt_while_spec matrix _ _ _ Hout) as (_ & _ & _ & Hle & Hfix).
  repeat split; [done..|].
  set (out := optimize2Opt route matrix) in *.
  pose proof (optimize2Opt_fuel_bound out matrix) as Hout'.
  unfold optimize2Opt_fuel, pass_bound in Hout'. simpl in Hout'.
  rewrite Hfix, (pass_not_improved matrix out Hfix) in Hout'.
  by injection Hout'.
Qed.


(** ** The scenarios of the specification *)

Example scenario1_construct :
  nearestNeighborTSP (loc "B" true) [loc "D1" false; loc "D2" false] scenario1
  = Returned ["B"; "D1"; "D2"; "B"].
Proof. reflexivity. Qed.

Example scenario1_cost :
  num_eq (calculateRouteCost ["B"; "D1"; "D2"; "B"] scenario1) (Fin 7).
Proof. reflexivity. Qed.

Example scenario1_refine :
  optimize2Opt ["B"; "D1"; "D2"; "B"] scenario1 = ["B"; "D1"; "D2"; "B"].
Proof. reflexivity. Qed.

Example scenario2_construct :
  nearestNeighborTSP (loc "B" true)
    [loc "D1" false; loc "D2" false; loc "D3" false] scenario2
  = Returned ["B"; "D1"; "D2"; "D3"; "B"].
Proof. reflexivity. Qed.

Example scenario2_refine :
  optimize2Opt ["B"; "D1"; "D2"; "D3"; "B"] scenario2
  = ["B"; "D2"; "D1"; "D3"; "B"] ∧
  num_lt (calculateRouteCost ["B"; "D2"; "D1"; "D3"; "B"] scenario2)
         (calculateRouteCost ["B"; "D1"; "D2"; "D3"; "B"] scenario2).
Proof. split; reflexivity. Qed.

Example infinite_fallback :
  nearestNeighborTSP (loc "B" true) [loc "D1" false; loc "D2" false] ∅
  = Returned ["B"; "D1"; "D2"; "B"].
Proof. reflexivity. Qed.

(** * Further properties of the solver *)

(** ** The 2-opt move *)

Lemma rev_reverse {A} (l : list A) : rev l = reverse l.
Proof. unfold reverse. apply rev_alt. Qed.

Lemma swap2Opt_split (route : list string) (i j : nat) :
  (i ≤ j)%nat →
  swap2Opt route i j =
    take i route ++ reverse (take (j + 1 - i) (drop i route))
      ++ drop (j + 1) route.
Proof.
  intros Hij. unfold swap2Opt. rewrite rev_reverse.
  by replace (i + (j + 1 - i))%nat with (j + 1)%nat by lia.
Qed.

(** What a move does to every position: the places from [i] to [j] are
    read backwards, the others are left alone. *)
Theorem swap2Opt_lookup (route : list string) (i j k : nat) :
  (i ≤ j)%nat → (j < length route)%nat →
  swap2Opt route i j !! k =
    route !! (if decide (i ≤ k ≤ j)%nat then (i + j - k)%nat else k).
Proof.
  intros Hij Hj. rewrite swap2Opt_split by done.
  assert (length (take i route) = i) as Hla by (rewrite length_take; lia).
  assert (length (reverse (take (j + 1 - i) (drop i route))) = (j + 1 - i)%nat)
    as Hlb by (rewrite length_reverse, length_take, length_drop; lia).
  destruct (decide (i ≤ k ≤ j)%nat) as [Hk|Hk].
  - rewrite lookup_app_r by lia. rewrite Hla.
    rewrite lookup_app_l by lia.
    rewrite reverse_lookup by (rewrite length_take, length_drop; lia).
    rewrite length_take, length_drop.
    rewrite lookup_take_lt by lia. rewrite lookup_drop. f_equal. lia.
  - destruct (decide (k < i)%nat) as [Hlt|Hge].
    + rewrite lookup_app_l by lia. by rewrite lookup_take_lt.
    + rewrite lookup_app_r by lia. rewrite Hla.
      rewrite lookup_app_r by lia. rewrite Hlb.
      rewrite lookup_drop. f_equal. lia.
Qed.

Lemma swap2Opt_lookup_witness :
  swap2Opt ["B"; "D1"; "D2"; "D3"; "B"] 1 3 !! 1%nat =
    ["B"; "D1"; "D2"; "D3"; "B"] !!
      (if decide (1 ≤ 1 ≤ 3)%nat then (1 + 3 - 1)%nat else 1%nat).
Proof.
  apply (swap2Opt_lookup ["B"; "D1"; "D2"; "D3"; "B"] 1 3 1); simpl; lia.
Defined.

(** A move undoes itself. *)
Theorem swap2Opt_involutive (route : list string) (i j : nat) :
  (i ≤ j)%nat → swap2Opt (swap2Opt route i j) i j = route.
Proof.
  intros Hij.
  destruct (decide (i ≤ length route)%nat) as [Hi|Hi].
  - rewrite (swap2Opt_split (swap2Opt route i j)) by done.
    rewrite (swap2Opt_split route) by done.
    set (A := take i route).
    set (B := take (j + 1 - i) (drop i route)).
    set (C := drop (j + 1) route).
    assert (length A = i) as HA by (unfold A; rewrite length_take; lia).
    assert (length B = (j + 1 - i)%nat ∨ C = []) as HB.
    { unfold B, C. rewrite length_take, length_drop.
      destruct (decide (j + 1 ≤ length route)%nat); [left; lia|right].
      apply drop_ge. lia. }
    assert (route = A ++ B ++ C) as Hr.
    { unfold A, B, C.
      replace (j + 1)%nat with (i + (j + 1 - i))%nat at 2 by lia.
      by rewrite <- drop_drop, !take_drop. }
    rewrite take_app_length' by done.
    rewrite drop_app_length' by done.
    assert (take (j + 1 - i) (reverse B ++ C) = reverse B) as ->.
    { destruct HB as [HB| ->].
      - rewrite take_app_length'; [done|by rewrite length_reverse].
      - rewrite app_nil_r. apply take_ge. rewrite length_reverse.
        unfold B. rewrite length_take. lia. }
    rewrite reverse_involutive.
    assert (drop (j + 1) (A ++ reverse B ++ C) = C) as ->.
    { destruct HB as [HB| HC].
      - rewrite app_assoc. apply drop_app_length'.
        rewrite length_app, length_reverse. lia.
      - rewrite HC. apply drop_ge.
        rewrite !length_app, length_reverse. simpl.
        unfold B. rewrite length_take. lia. }
    done.
  - assert (swap2Opt route i j = route) as Hid.
    { rewrite swap2Opt_split by done.
      rewrite (take_ge route i), (drop_ge route i), (drop_ge route (j + 1))
        by lia.
      rewrite take_nil. simpl. by rewrite app_nil_r. }
    by rewrite !Hid.
Qed.

Lemma swap2Opt_involutive_witness :
  swap2Opt (swap2Opt ["B"; "D1"; "D2"; "D3"; "B"] 1 2) 1 2 =
    ["B"; "D1"; "D2"; "D3"; "B"].
Proof.
  apply (swap2Opt_involutive ["B"; "D1"; "D2"; "D3"; "B"] 1 2). lia.
Defined.

(** ** The refined route is a 2-opt local optimum *)

Lemma fold_left_rejects {A B} (f : A → B → A) (flag : A → bool)
    (R : A → B → Prop) (l : list B) :
  (∀ a x, flag (f a x) = false → f a x = a ∧ R a x) →
  ∀ a, flag (fold_left f l a) = false →
       fold_left f l a = a ∧ ∀ x, x ∈ l → R a x.
Proof.
  intros Hf. induction l as [|x l IH]; intros a Hflag; simpl in *.
  - split; [done|]. intros x Hx. by apply elem_of_nil in Hx.
  - destruct (IH _ Hflag) as [Heq Hall]. rewrite Heq in Hflag |- *.
    destruct (Hf _ _ Hflag) as [Heq' Hx]. rewrite Heq' in Hall |- *.
    split; [done|]. intros y Hy.
    apply elem_of_cons in Hy as [->|Hy]; [done|by apply Hall].
Qed.

Lemma try_swap_rejected (matrix : DistanceMatrix) (st : SearchState)
    (i j : nat) :
  improved (try_swap matrix st i j) = false →
  try_swap matrix st i j = st ∧
  num_ltb (calculateRouteCost (swap2Opt (bestRoute st) i j) matrix)
          (bestCost st) = false.
Proof.
  unfold try_swap. by destruct (num_ltb _ (bestCost st)) eqn:Hlt.
Qed.

Lemma inner_loop_rejected (matrix : DistanceMatrix) (n : nat)
    (st : SearchState) (i : nat) :
  improved (inner_loop matrix n st i) = false →
  inner_loop matrix n st i = st ∧
  ∀ j, (i < j)%nat → (j + 1 < n)%nat →
       num_ltb (calculateRouteCost (swap2Opt (bestRoute st) i j) matrix)
               (bestCost st) = false.
Proof.
  intros Himp. unfold inner_loop in *.
  destruct (fold_left_rejects (λ st j, try_swap matrix st i j) improved
    (λ st j, num_ltb (calculateRouteCost (swap2Opt (bestRoute st) i j) matrix)
                     (bestCost st) = false)
    (seq (i + 1) (n - 1 - (i + 1)))
    (λ a x, try_swap_rejected matrix a i x) st Himp) as [Heq Hall].
  split; [done|]. intros j Hij Hj. apply Hall, elem_of_seq. lia.
Qed.

Lemma pass_rejected (matrix : DistanceMatrix) (n : nat) (route : list string)
    (cost : number) :
  improved (pass matrix n route cost) = false →
  ∀ i j, (1 ≤ i)%nat → (i < j)%nat → (j + 1 < n)%nat →
         num_ltb (calculateRouteCost (swap2Opt route i j) matrix) cost = false.
Proof.
  intros Himp i j Hi Hij Hj. unfold pass in Himp.
  destruct (fold_left_rejects (inner_loop matrix n) improved
    (λ st i, ∀ j, (i < j)%nat → (j + 1 < n)%nat →
       num_ltb (calculateRouteCost (swap2Opt (bestRoute st) i j) matrix)
               (bestCost st) = false)
    (seq 1 (n - 2 - 1))
    (λ a x H, inner_loop_rejected matrix n a x H) _ Himp) as [_ Hall].
  apply (Hall i); [|done..]. apply elem_of_seq. lia.
Qed.

(** No move of the 2-opt neighbourhood makes the refined route strictly
    cheaper. *)
Theorem optimize2Opt_local_optimum (route : list string)
    (matrix : DistanceMatrix) (i j : nat) :
  (1 ≤ i)%nat → (i < j)%nat → (j + 1 < length route)%nat →
  num_ltb (calculateRouteCost (swap2Opt (optimize2Opt route matrix) i j) matrix)
          (calculateRouteCost (optimize2Opt route matrix) matrix) = false.
Proof.
  intros Hi Hij Hj.
  pose proof (optimize2Opt_fuel_bound route matrix) as Hout.
  destruct (optimize2Opt_while_spec matrix _ _ _ Hout)
    as (Hperm & _ & _ & _ & Hfix).
  apply (pass_rejected _ _ _ _ Hfix); [done..|].
  by rewrite (Permutation_length Hperm).
Qed.

Lemma optimize2Opt_local_optimum_witness :
  num_ltb (calculateRouteCost
             (swap2Opt (optimize2Opt ["B"; "D1"; "D2"; "D3"; "B"] scenario2) 1 2)
             scenario2)
          (calculateRouteCost
             (optimize2Opt ["B"; "D1"; "D2"; "D3"; "B"] scenario2) scenario2)
  = false.
Proof.
  apply (optimize2Opt_local_optimum ["B"; "D1"; "D2"; "D3"; "B"] scenario2 1 2);
    simpl; lia.
Defined.

(** A route with fewer than four places has no pair of interior places to
    reverse: it is returned as it is. *)
Theorem optimize2Opt_short (route : list string) (matrix : DistanceMatrix) :
  (length route < 4)%nat → optimize2Opt route matrix = route.
Proof.
  intros Hlen. unfold optimize2Opt, optimize2Opt_fuel, pass_bound. simpl.
  unfold pass.
  replace (length route - 2 - 1)%nat with 0%nat by lia. done.
Qed.

Lemma optimize2Opt_short_witness :
  optimize2Opt ["B"; "D1"; "B"] scenario1 = ["B"; "D1"; "B"].
Proof. apply (optimize2Opt_short ["B"; "D1"; "B"] scenario1). simpl. lia. Defined.

(** ** Costs and totals *)

Lemma calculateCost_leg_ok (matrix : DistanceMatrix) (a b : string) :
  calculateCost a b matrix = Infinity ↔ leg_ok matrix (a, b) = false.
Proof.
  unfold calculateCost, leg_ok. simpl.
  destruct (lookup2 matrix a b) as [e|]; [|done].
  by destruct (status_ok e).
Qed.

Lemma num_add_Infinity (a b : number) :
  num_add a b = Infinity ↔ a = Infinity ∨ b = Infinity.
Proof. destruct a, b; simpl; naive_solver. Qed.

Lemma fold_costs_Infinity (matrix : DistanceMatrix)
    (ps : list (string * string)) :
  ∀ c,
    fold_left (λ c p, num_add c (calculateCost (fst p) (snd p) matrix)) ps c
      = Infinity ↔
    c = Infinity ∨ Exists (λ p, leg_ok matrix p = false) ps.
Proof.
  induction ps as [|[a b] ps IH]; intros c; simpl.
  - rewrite Exists_nil. naive_solver.
  - rewrite IH, num_add_Infinity, Exists_cons, calculateCost_leg_ok.
    simpl. naive_solver.
Qed.

(** The cost of a route is infinite exactly when one of its consecutive
    pairs has no OK entry in the matrix: one unusable leg makes the whole
    route cost [Infinity], and nothing else does. *)
Theorem calculateRouteCost_Infinity (route : list string)
    (matrix : DistanceMatrix) :
  calculateRouteCost route matrix = Infinity ↔
  Exists (λ p, leg_ok matrix p = false) (legs route).
Proof.
  unfold calculateRouteCost. rewrite cost_loop_legs, fold_costs_Infinity.
  naive_solver.
Qed.

Lemma calculateRouteCost_Infinity_witness :
  calculateRouteCost ["B"; "D1"; "D3"] scenario1 = Infinity.
Proof.
  apply (calculateRouteCost_Infinity ["B"; "D1"; "D3"] scenario1).
  right. left. reflexivity.
Defined.

(** ** The tour when several stops are flagged, or none of the legs is usable *)

Lemma find_first_flagged (pre post : list Location) (b : Location) :
  Forall (λ l, isBase l ≠ Some true) pre →
  isBase b = Some true →
  find (λ l, truthy (isBase l)) (pre ++ b :: post) = Some b.
Proof.
  intros Hpre Hb. induction Hpre as [|x pre Hx _ IH]; simpl.
  - by rewrite Hb.
  - by destruct (isBase x) as [[|]|].
Qed.

Lemma optimizeRoute_shape (stops : list Location) (matrix : DistanceMatrix)
    (b : Location) :
  (2 < length stops)%nat →
  find (λ l, truthy (isBase l)) stops = Some b →
  ∃ visited,
    visited ≡ₚ filter (λ l, negb (truthy (isBase l))) stops ∧
    let order := id b :: map id visited ++ [id b] in
    optimizeRoute stops matrix =
      Returned {| order := order;
                  totalDistance := sumDistance (calculateRouteTotals order matrix);
                  totalTime := sumTime (calculateRouteTotals order matrix);
                  totalCost := sumCost (calculateRouteTotals order matrix) |}.
Proof.
  intros Hlen Hfind. unfold optimizeRoute.
  rewrite (proj2 (Nat.leb_gt _ _) Hlen), Hfind.
  destruct (nearestNeighborTSP_returns b
              (filter (λ l, negb (truthy (isBase l))) stops) matrix)
    as (visited & -> & Hperm).
  by exists visited.
Qed.

(** With more than two stops, the first stop flagged as base is the base:
    the order is its identifier, a rearrangement of the identifiers of the
    stops that are not flagged, and its identifier again.  Stops flagged
    after the first are left out of the order. *)
Theorem optimizeRoute_first_flagged (pre post : list Location) (b : Location)
    (matrix : DistanceMatrix) :
  (2 < length (pre ++ b :: post))%nat →
  Forall (λ l, isBase l ≠ Some true) pre →
  isBase b = Some true →
  ∃ r mid,
    optimizeRoute (pre ++ b :: post) matrix = Returned r ∧
    order r = id b :: mid ++ [id b] ∧
    mid ≡ₚ map id (pre ++ filter (λ l, negb (truthy (isBase l))) post).
Proof.
  intros Hlen Hpre Hb.
  destruct (optimizeRoute_shape _ matrix b Hlen (find_first_flagged _ _ _ Hpre Hb))
    as (visited & Hperm & Hr).
  eexists _, (map id visited). split; [exact Hr|]. split; [done|].
  apply Permutation_map. rewrite Hperm, filter_app.
  rewrite filter_cons_False by (rewrite Hb; by intros []).
  f_equiv. clear -Hpre. induction Hpre as [|x pre Hx _ IH]; [done|].
  rewrite filter_cons_True; [by rewrite IH|].
  by destruct (isBase x) as [[|]|].
Qed.

Lemma optimizeRoute_first_flagged_witness :
  ∃ r mid,
    optimizeRoute two_bases scenario1 = Returned r ∧
    order r = "B" :: mid ++ ["B"] ∧
    mid ≡ₚ ["D1"; "D2"].
Proof.
  apply (optimizeRoute_first_flagged [loc "D1" false]
           [loc "D2" false; loc "C" true] (loc "B" true) scenario1).
  - simpl. lia.
  - by repeat constructor.
  - reflexivity.
Defined.

Lemma count_occ_tour (b : string) (mid : list string) (x : string) :
  b ≠ x → NoDup mid → x ∈ mid →
  count_occ String.string_dec (b :: mid ++ [b]) x = 1%nat.
Proof.
  intros Hne Hnd Hx. simpl.
  destruct (String.string_dec b x); [done|].
  rewrite count_occ_app. simpl.
  destruct (String.string_dec b x); [done|].
  rewrite Nat.add_0_r. by apply count_occ_NoDup_1.
Qed.

(** Construction followed by refinement still gives a tour: with more
    than two stops, one of them flagged and distinct identifiers, the
    refined order starts and ends at the base, visits every other stop
    once, and costs no more than the constructed order. *)
Theorem optimizeRoute_then_optimize2Opt (stops : list Location)
    (matrix : DistanceMatrix) (base : Location) :
  (2 < length stops)%nat →
  filter (λ l, truthy (isBase l)) stops = [base] →
  NoDup (map id stops) →
  ∃ r,
    optimizeRoute stops matrix = Returned r ∧
    let refined := optimize2Opt (order r) matrix in
    head refined = Some (id base) ∧
    last refined = Some (id base) ∧
    (∀ s, s ∈ stops → isBase s ≠ Some true →
       count_occ String.string_dec refined (id s) = 1%nat) ∧
    length refined = S (length stops) ∧
    num_le (calculateRouteCost refined matrix)
           (calculateRouteCost (order r) matrix).
Proof.
  intros Hlen Hbase Hnd.
  assert (find (λ l, truthy (isBase l)) stops = Some base) as Hfind
    by by rewrite find_head_filter, Hbase.
  destruct (optimizeRoute_shape stops matrix base Hlen Hfind)
    as (visited & Hperm & Hr).
  eexists. split; [exact Hr|]. simpl.
  set (order0 := id base :: map id visited ++ [id base]).
  pose proof (optimize2Opt_fuel_bound order0 matrix) as Hout.
  destruct (optimize2Opt_while_spec matrix _ _ _ Hout)
    as (Hperm' & Hhead & Hlast & Hle & _).
  assert (base ∈ stops ∧ truthy (isBase base) = true) as [Hin Hflag].
  { assert (base ∈ filter (λ l, truthy (isBase l)) stops) as Hb
      by (rewrite Hbase; by left).
    apply list_elem_of_filter in Hb as [Hb ?]. split; [done|].
    by apply Is_true_true. }
  split_and!.
  - by rewrite Hhead.
  - rewrite Hlast. unfold order0. by rewrite app_comm_cons, last_snoc.
  - intros s Hs Hsflag.
    rewrite (proj1 (Permutation_count_occ String.string_dec _ _) Hperm').
    apply count_occ_tour.
    + intros Heq. apply (NoDup_map_id_inj stops) in Heq; [|done..].
      subst s. by destruct (isBase base) as [[|]|].
    + apply NoDup_ListNoDup.
      apply (Permutation_NoDup (Permutation_map id (symmetry Hperm))).
      apply NoDup_ListNoDup. by apply NoDup_map_id_filter.
    + apply list_elem_of_In, in_map, list_elem_of_In. rewrite Hperm.
      apply list_elem_of_filter. split; [|done]. apply Is_true_true.
      by destruct (isBase s) as [[|]|].
  - rewrite (Permutation_length Hperm'). unfold order0. simpl.
    rewrite length_app, length_map, (Permutation_length Hperm). simpl.
    pose proof (length_filter_flag (λ l, truthy (isBase l)) stops) as Hsplit.
    cbv beta in Hsplit. rewrite Hbase in Hsplit. simpl in Hsplit. lia.
  - done.
Qed.

Lemma optimizeRoute_then_optimize2Opt_witness :
  ∃ r,
    optimizeRoute four_stops scenario2 = Returned r ∧
    let refined := optimize2Opt (order r) scenario2 in
    head refined = Some "B" ∧
    last refined = Some "B" ∧
    (∀ s, s ∈ four_stops → isBase s ≠ Some true →
       count_occ String.string_dec refined (id s) = 1%nat) ∧
    length refined = 5%nat ∧
    num_le (calculateRouteCost refined scenario2)
           (calculateRouteCost (order r) scenario2).
Proof.
  apply (optimizeRoute_then_optimize2Opt four_stops scenario2 (loc "B" true)).
  - simpl. lia.
  - reflexivity.
  - compute_done.
Defined.

Lemma scan_all_infinite (currentId : string) (matrix : DistanceMatrix)
    (rest : list Location) :
  ∀ i k,
    (∀ v, v ∈ rest → calculateCost currentId (id v) matrix = Infinity) →
    scan currentId matrix rest i k Infinity = (k, Infinity).
Proof.
  induction rest as [|u rest IH]; intros i k Hinf; [done|]. simpl.
  rewrite (Hinf u) by by left. simpl. apply IH.
  intros v Hv. apply Hinf. by right.
Qed.

Lemma nn_while_all_infinite (matrix : DistanceMatrix)
    (unvisited : list Location) :
  ∀ route current,
    (∀ u v, u ∈ current :: unvisited → v ∈ unvisited →
            calculateCost (id u) (id v) matrix = Infinity) →
    nn_while matrix unvisited route current =
      Returned (route ++ map id unvisited).
Proof.
  induction unvisited as [|u us IH]; intros route current Hinf.
  - rewrite nn_while_eq. by rewrite app_nil_r.
  - assert (nearestIndex current (u :: us) matrix = 0%nat) as Hk.
    { unfold nearestIndex. rewrite scan_all_infinite; [done|].
      intros v Hv. apply Hinf; [by left|done]. }
    rewrite (nn_while_step matrix (u :: us) route current u)
      by by rewrite Hk.
    rewrite Hk. simpl. rewrite IH.
    + by rewrite <- app_assoc.
    + intros x y Hx Hy. apply Hinf; by right.
Qed.

(** When none of the pairs among the stops has a usable entry, every
    comparison of the scan fails and the deliveries are visited in the
    order they were given. *)
Theorem nearestNeighborTSP_all_infinite (base : Location)
    (deliveries : list Location) (matrix : DistanceMatrix) :
  (∀ u v, u ∈ base :: deliveries → v ∈ deliveries →
          calculateCost (id u) (id v) matrix = Infinity) →
  nearestNeighborTSP base deliveries matrix =
    Returned (id base :: map id deliveries ++ [id base]).
Proof.
  intros Hinf. unfold nearestNeighborTSP.
  by rewrite nn_while_all_infinite.
Qed.

Lemma nearestNeighborTSP_all_infinite_witness :
  nearestNeighborTSP (loc "B" true) [loc "D2" false; loc "D1" false] ∅ =
    Returned ["B"; "D2"; "D1"; "B"].
Proof.
  apply (nearestNeighborTSP_all_infinite (loc "B" true)
           [loc "D2" false; loc "D1" false] ∅).
  intros u v _ _. unfold calculateCost, lookup2. by rewrite lookup_empty.
Defined.

(** ** 2-opt on doubles *)

Section Pass64.
Variable matrix : Binary64.DistanceMatrix.
Variable route : list string.

Let n := length route.
Let cost := Binary64.calculateRouteCost route matrix.

Lemma try_swap64_inv (st : Binary64.SearchState) (i j : nat) :
  (1 ≤ i)%nat → (i ≤ j)%nat → (j + 1 < n)%nat →
  Binary64.pass_inv matrix route st →
  Binary64.pass_inv matrix route (Binary64.try_swap matrix st i j).
Proof.
  intros Hi Hij Hj (Hperm & Hhead & Hlast & Hcost & Himp).
  unfold Binary64.try_swap.
  destruct (PrimFloat.ltb _ (Binary64.bestCost st)) eqn:Hlt; [|done].
  assert (length (Binary64.bestRoute st) = n) as Hlen by by rewrite Hperm.
  split; [|split; [|split; [|split]]]; simpl.
  - by rewrite swap2Opt_Permutation.
  - by rewrite swap2Opt_head.
  - rewrite swap2Opt_last; [done..|lia].
  - done.
  - destruct (Binary64.improved st).
    + exact (float_ltb_trans _ _ _ Hlt Himp).
    + rewrite Himp in Hlt |- *. exact Hlt.
Qed.

Lemma inner_loop64_inv (st : Binary64.SearchState) (i : nat) :
  (1 ≤ i)%nat → Binary64.pass_inv matrix route st →
  Binary64.pass_inv matrix route (Binary64.inner_loop matrix n st i).
Proof.
  intros Hi. unfold Binary64.inner_loop. apply fold_left_inv.
  intros st' j Hj. apply elem_of_seq in Hj.
  apply try_swap64_inv; lia.
Qed.

Lemma pass64_pass_inv :
  Binary64.pass_inv matrix route (Binary64.pass matrix n route cost).
Proof.
  unfold Binary64.pass. apply fold_left_inv; [|done].
  intros st i Hi. apply elem_of_seq in Hi. apply inner_loop64_inv. lia.
Qed.
End Pass64.

Lemma pass64_not_improved (matrix : Binary64.DistanceMatrix) (route : list string) :
  let st := Binary64.pass matrix (length route) route
              (Binary64.calculateRouteCost route matrix) in
  Binary64.improved st = false →
  st = {| Binary64.bestRoute := route;
          Binary64.bestCost := Binary64.calculateRouteCost route matrix;
          Binary64.improved := false |}.
Proof.
  intros st Himp.
  destruct (pass64_pass_inv matrix route) as (_ & _ & _ & _ & Hst).
  fold st in Hst. by rewrite Himp in Hst.
Qed.

Lemma pass64_improved (matrix : Binary64.DistanceMatrix) (route : list string) :
  let st := Binary64.pass matrix (length route) route
              (Binary64.calculateRouteCost route matrix) in
  Binary64.improved st = true →
  Binary64.bestRoute st ≡ₚ route ∧
  Binary64.bestCost st = Binary64.calculateRouteCost (Binary64.bestRoute st) matrix ∧
  PrimFloat.ltb (Binary64.bestCost st) (Binary64.calculateRouteCost route matrix)
    = true.
Proof.
  intros st Himp.
  destruct (pass64_pass_inv matrix route) as (? & ? & ? & ? & Hst).
  fold st in Hst. by rewrite Himp in Hst.
Qed.

(** What the loop returns, when it returns: the route it started from, or
    a rearrangement of it whose computed cost is strictly below. *)
Lemma optimize2Opt64_while_spec (matrix : Binary64.DistanceMatrix) (fuel : nat) :
  ∀ route out,
    Binary64.optimize2Opt_while fuel matrix (length route) route
      (Binary64.calculateRouteCost route matrix) = Some out →
    out ≡ₚ route ∧
    (out = route ∨
     PrimFloat.ltb (Binary64.calculateRouteCost out matrix)
                   (Binary64.calculateRouteCost route matrix) = true).
Proof.
  induction fuel as [|fuel IH]; intros route out; [done|]. simpl.
  pose proof (pass64_improved matrix route) as Hyes.
  pose proof (pass64_not_improved matrix route) as Hno.
  set (st := Binary64.pass matrix (length route) route
               (Binary64.calculateRouteCost route matrix)) in *.
  simpl in Hyes, Hno. destruct (Binary64.improved st) eqn:Himp.
  - destruct (Hyes eq_refl) as (Hperm & Hcost & Hlt).
    rewrite Hcost, <- (Permutation_length Hperm). intros Hout.
    destruct (IH _ _ Hout) as (Hperm' & Hcase).
    split; [by etrans|]. right. rewrite Hcost in Hlt.
    destruct Hcase as [->|Hlt']; [done|by eapply float_ltb_trans].
  - rewrite (Hno eq_refl). simpl. intros [= <-]. by split; [|left].
Qed.

Lemma cheaper_count64_decreases (matrix : Binary64.DistanceMatrix)
    (route0 route' : list string) (c : float) :
  route' ≡ₚ route0 →
  PrimFloat.ltb (Binary64.calculateRouteCost route' matrix) c = true →
  (Binary64.cheaper_count matrix route0 (Binary64.calculateRouteCost route' matrix)
   < Binary64.cheaper_count matrix route0 c)%nat.
Proof.
  intros Hperm Hlt. unfold Binary64.cheaper_count.
  apply (length_filter_lt_sub
           (λ p, PrimFloat.ltb (Binary64.calculateRouteCost p matrix) c)
           (λ p, PrimFloat.ltb (Binary64.calculateRouteCost p matrix)
                               (Binary64.calculateRouteCost route' matrix))
           _ route').
  - intros p Hp. by eapply float_ltb_trans.
  - by apply permutations_Permutation.
  - done.
  - apply float_ltb_irrefl.
Qed.

(** The loop on doubles returns within as many passes as there are
    rearrangements whose computed cost is below that of the route it starts
    from, plus one. *)
Lemma optimize2Opt64_while_terminates (matrix : Binary64.DistanceMatrix)
    (route0 : list string) (fuel : nat) :
  ∀ route,
    route ≡ₚ route0 →
    (Binary64.cheaper_count matrix route0 (Binary64.calculateRouteCost route matrix)
     < fuel)%nat →
    ∃ out,
      Binary64.optimize2Opt_while fuel matrix (length route) route
        (Binary64.calculateRouteCost route matrix) = Some out.
Proof.
  induction fuel as [|fuel IH]; intros route Hperm Hfuel; [lia|]. simpl.
  pose proof (pass64_improved matrix route) as Hyes.
  set (st := Binary64.pass matrix (length route) route
               (Binary64.calculateRouteCost route matrix)) in *.
  simpl in Hyes. destruct (Binary64.improved st) eqn:Himp; [|by eexists].
  destruct (Hyes eq_refl) as (Hperm' & Hcost & Hlt).
  rewrite Hcost, <- (Permutation_length Hperm'). apply IH.
  - by etrans.
  - rewrite Hcost in Hlt.
    pose proof (cheaper_count64_decreases matrix route0 _ _
                  (transitivity Hperm' Hperm) Hlt).
    lia.
Qed.

Lemma optimize2Opt64_fuel_bound (route : list string)
    (matrix : Binary64.DistanceMatrix) :
  Binary64.optimize2Opt_fuel (pass_bound route) route matrix =
    Some (Binary64.optimize2Opt route matrix).
Proof.
  unfold Binary64.optimize2Opt.
  destruct (optimize2Opt64_while_terminates matrix route (pass_bound route) route)
    as [out Hout]; [done| |].
  - unfold Binary64.cheaper_count, pass_bound.
    pose proof (length_filter
      (λ p, PrimFloat.ltb (Binary64.calculateRouteCost p matrix)
                          (Binary64.calculateRouteCost route matrix))
      (permutations route)).
    lia.
  - unfold Binary64.optimize2Opt_fuel. by rewrite Hout.
Qed.

(** On the costs as the program computes them in double precision, the
    pass loop of [optimize2Opt] returns within [pass_bound route] passes,
    and what it returns is the input route itself or a rearrangement of it
    whose computed cost is strictly below the computed cost of the input. *)
Theorem optimize2Opt_same_or_cheaper (route : list string)
    (matrix : Binary64.DistanceMatrix) :
  Binary64.optimize2Opt_fuel (pass_bound route) route matrix =
    Some (Binary64.optimize2Opt route matrix) ∧
  Binary64.optimize2Opt route matrix ≡ₚ route ∧
  (Binary64.optimize2Opt route matrix = route ∨
   PrimFloat.ltb
     (Binary64.calculateRouteCost (Binary64.optimize2Opt route matrix) matrix)
     (Binary64.calculateRouteCost route matrix) = true).
Proof.
  pose proof (optimize2Opt64_fuel_bound route matrix) as Hout.
  split; [done|]. exact (optimize2Opt64_while_spec matrix _ _ _ Hout).
Qed.

(** A tour and its reverse over a symmetric matrix: the program computes
    [11.9] for the first and [11.899999999999999] for the second, and
    replaces the first by the second. *)
Example mirror_refine :
  Binary64.calculateRouteCost ["B"; "D1"; "D2"; "B"] Binary64.mirror
    = 0x1.7cccccccccccdp+3%float ∧
  Binary64.calculateRouteCost ["B"; "D2"; "D1"; "B"] Binary64.mirror
    = 0x1.7ccccccccccccp+3%float ∧
  Binary64.optimize2Opt ["B"; "D1"; "D2"; "B"] Binary64.mirror
    = ["B"; "D2"; "D1"; "B"].
Proof. vm_compute. done. Qed.

(** * Properties of the application around the solver *)

(** ** The list of locations of [App] *)

Lemma filter_flagged_unflagged (l : list Location) :
  filter (λ l, truthy (isBase l)) (filter (λ l, negb (truthy (isBase l))) l)
  = [].
Proof.
  induction l as [|x l IH]; [done|].
  destruct (truthy (isBase x)) eqn:Hx.
  - by rewrite (filter_cons_False (λ l, negb (truthy (isBase l))))
      by (rewrite Hx; by intros []).
  - rewrite (filter_cons_True (λ l, negb (truthy (isBase l))))
      by by rewrite Hx.
    by rewrite filter_cons_False by by apply Is_true_false.
Qed.

Lemma filter_unflagged_idemp (l : list Location) :
  filter (λ l, negb (truthy (isBase l)))
         (filter (λ l, negb (truthy (isBase l))) l)
  = filter (λ l, negb (truthy (isBase l))) l.
Proof.
  induction l as [|x l IH]; [done|].
  destruct (truthy (isBase x)) eqn:Hx.
  - by rewrite filter_cons_False by (rewrite Hx; by intros []).
  - rewrite !filter_cons_True by by rewrite Hx. by rewrite IH.
Qed.

(** Adding a location flagged as base makes it the only flagged location,
    whatever was flagged before, and leaves the unflagged locations as
    they were. *)
Theorem handleAddLocation_base (st : AppState) (location : Location) :
  isBase location = Some true →
  filter (λ l, truthy (isBase l)) (locations (handleAddLocation st location))
    = [location] ∧
  filter (λ l, negb (truthy (isBase l)))
         (locations (handleAddLocation st location))
    = filter (λ l, negb (truthy (isBase l))) (locations st).
Proof.
  intros Hb. unfold handleAddLocation. simpl. rewrite Hb. simpl.
  rewrite !filter_app, filter_flagged_unflagged, filter_unflagged_idemp.
  rewrite filter_cons_True by by rewrite Hb.
  rewrite filter_cons_False by (rewrite Hb; by intros []).
  by rewrite app_nil_r.
Qed.

Lemma handleAddLocation_base_witness :
  filter (λ l, truthy (isBase l))
         (locations (handleAddLocation
            {| locations := three_stops; distanceMatrix := ∅;
               optimizedRoute := None; isOptimizing := false |}
            (loc "C" true)))
    = [loc "C" true] ∧
  filter (λ l, negb (truthy (isBase l)))
         (locations (handleAddLocation
            {| locations := three_stops; distanceMatrix := ∅;
               optimizedRoute := None; isOptimizing := false |}
            (loc "C" true)))
    = filter (λ l, negb (truthy (isBase l))) three_stops.
Proof.
  apply (handleAddLocation_base
           {| locations := three_stops; distanceMatrix := ∅;
              optimizedRoute := None; isOptimizing := false |}
           (loc "C" true)).
  reflexivity.
Defined.

Lemma length_filter_flagged_filter (P : Location → Prop)
    `{∀ x, Decision (P x)} (l : list Location) :
  (length (filter (λ l, truthy (isBase l)) (filter P l))
   ≤ length (filter (λ l, truthy (isBase l)) l))%nat.
Proof.
  induction l as [|x l IH]; [done|].
  destruct (decide (P x)).
  - rewrite (filter_cons_True P) by done.
    destruct (truthy (isBase x)) eqn:Hx.
    + rewrite !(filter_cons_True (λ l, truthy (isBase l)))
        by by apply Is_true_true.
      simpl. lia.
    + by rewrite !(filter_cons_False (λ l, truthy (isBase l)))
        by by apply Is_true_false.
  - rewrite (filter_cons_False P) by done.
    destruct (truthy (isBase x)) eqn:Hx.
    + rewrite (filter_cons_True (λ l, truthy (isBase l)) x l)
        by by apply Is_true_true.
      simpl. lia.
    + by rewrite (filter_cons_False (λ l, truthy (isBase l)) x l)
        by by apply Is_true_false.
Qed.

(** Whatever locations the user adds and removes, in whatever order, at
    most one location of the list is flagged as base. *)
Theorem run_at_most_one_base (actions : list Action) :
  (length (filter (λ l, truthy (isBase l)) (locations (run actions))) ≤ 1)%nat.
Proof.
  unfold run.
  apply (fold_left_inv
    (λ st, (length (filter (λ l, truthy (isBase l)) (locations st)) ≤ 1)%nat));
    [|simpl; lia].
  intros st [location|i] _ Hst; simpl.
  - destruct (truthy (isBase location)) eqn:Hb.
    + by rewrite filter_app, filter_flagged_unflagged,
        filter_cons_True by by apply Is_true_true.
    + rewrite filter_app, (filter_cons_False _ location)
        by by apply Is_true_false.
      by rewrite filter_nil, app_nil_r.
  - etrans; [apply length_filter_flagged_filter|done].
Qed.

Lemma filter_id_ne_fresh (l : list Location) (i : string) :
  i ∉ map id l → filter (λ l, id l ≠ i) l = l.
Proof.
  induction l as [|x l IH]; intros Hi; [done|].
  rewrite filter_cons_True.
  - rewrite IH; [done|]. intros Hin. apply Hi. simpl. by right.
  - intros Heq. apply Hi. simpl. rewrite Heq. by left.
Qed.

(** Removing a location that was just added, unflagged and under a fresh
    identifier, gives the list back; the matrix and the optimized route
    are cleared. *)
Theorem handleRemoveLocation_added (st : AppState) (location : Location) :
  isBase location ≠ Some true →
  id location ∉ map id (locations st) →
  handleRemoveLocation (handleAddLocation st location) (id location) =
    {| locations := locations st;
       distanceMatrix := ∅;
       optimizedRoute := None;
       isOptimizing := isOptimizing st |}.
Proof.
  intros Hb Hfresh. unfold handleRemoveLocation, handleAddLocation. simpl.
  replace (truthy (isBase location)) with false
    by by destruct (isBase location) as [[|]|].
  rewrite filter_app, filter_id_ne_fresh by done.
  rewrite filter_cons_False by (intros Hne; by apply Hne).
  by rewrite filter_nil, app_nil_r.
Qed.

Lemma handleRemoveLocation_added_witness :
  handleRemoveLocation
    (handleAddLocation
       {| locations := three_stops; distanceMatrix := scenario1;
          optimizedRoute := None; isOptimizing := false |}
       (loc "D3" false)) "D3" =
    {| locations := three_stops;
       distanceMatrix := ∅;
       optimizedRoute := None;
       isOptimizing := false |}.
Proof.
  apply (handleRemoveLocation_added
           {| locations := three_stops; distanceMatrix := scenario1;
              optimizedRoute := None; isOptimizing := false |}
           (loc "D3" false)).
  - discriminate.
  - compute_done.
Defined.

(** No location with the removed identifier is left, the others stay in
    their order, and removing again changes nothing more. *)
Theorem handleRemoveLocation_gone (st : AppState) (i : string) :
  i ∉ map id (locations (handleRemoveLocation st i)) ∧
  (∀ l, l ∈ locations st → id l ≠ i →
        l ∈ locations (handleRemoveLocation st i)) ∧
  (locations (handleRemoveLocation st i) `sublist_of` locations st) ∧
  handleRemoveLocation (handleRemoveLocation st i) i =
    handleRemoveLocation st i.
Proof.
  unfold handleRemoveLocation. simpl.
  assert (i ∉ map id (filter (λ l, id l ≠ i) (locations st))) as Hgone.
  { intros Hin. apply list_elem_of_In, in_map_iff in Hin as (l & Hl & Hin).
    apply list_elem_of_In, list_elem_of_filter in Hin as [Hne _]. done. }
  split_and!.
  - done.
  - intros l Hl Hne. by apply list_elem_of_filter.
  - apply sublist_filter.
  - f_equal. by apply filter_id_ne_fresh.
Qed.

Lemma handleRemoveLocation_gone_witness :
  loc "D1" false ∈
    locations (handleRemoveLocation
      {| locations := three_stops; distanceMatrix := scenario1;
         optimizedRoute := None; isOptimizing := false |} "B").
Proof.
  apply (proj1 (proj2 (handleRemoveLocation_gone
           {| locations := three_stops; distanceMatrix := scenario1;
              optimizedRoute := None; isOptimizing := false |} "B"))).
  - left.
  - discriminate.
Defined.

(** ** The simulated distances of [GoogleMapsService] *)

Import GoogleMapsService.

Lemma Math_round_bounds (x : Q) (lo hi : Z) :
  inject_Z lo <= x + (1 # 2) → x + (1 # 2) < inject_Z (hi + 1) →
  inject_Z lo <= inject_Z (Math_round x) ∧ inject_Z (Math_round x) <= inject_Z hi.
Proof.
  intros Hlo Hhi. unfold Math_round. rewrite <- !Zle_Qle. split.
  - rewrite <- (Qfloor_Z lo). by apply Qfloor_resp_le.
  - assert (inject_Z (Qfloor (x + (1 # 2))) < inject_Z (hi + 1)) as Hlt
      by (eapply Qle_lt_trans; [apply Qfloor_le|done]).
    rewrite <- Zlt_Qlt in Hlt. lia.
Qed.

Lemma speed_factor_bounds (avgSpeed : Q) :
  15 <= avgSpeed → avgSpeed < 25 →
  144 < 3600 / avgSpeed ∧ 3600 / avgSpeed <= 240.
Proof.
  intros Hlo Hhi.
  assert (0 < avgSpeed) as Hpos by lra.
  split.
  - apply Qlt_shift_div_l; [done|]. lra.
  - apply Qle_shift_div_r; [done|]. lra.
Qed.

Lemma simulateDistanceBetween_spec (rnd : nat → Q) (n : nat)
    (from to : Location) :
  let e := fst (simulateDistanceBetween rnd n from to) in
  let n' := snd (simulateDistanceBetween rnd n from to) in
  status e = "OK" ∧
  (id from = id to →
     value (distance e) = 0 ∧ value (duration e) = 0 ∧ n' = n) ∧
  (id from ≠ id to → (∀ k, 0 <= rnd k ∧ rnd k < 1) →
     2000 <= value (distance e) ∧ value (distance e) <= 22000 ∧
     346 <= value (duration e) ∧ value (duration e) <= 10560 ∧
     n' = (n + 3)%nat).
Proof.
  unfold simulateDistanceBetween.
  destruct (String.eqb (id from) (id to)) eqn:Heq; simpl.
  - apply String.eqb_eq in Heq. by split_and!.
  - apply String.eqb_neq in Heq. split_and!; [done|done|].
    intros _ Hrnd.
    destruct (Hrnd n) as [H1 H1'], (Hrnd (n + 1)%nat) as [H2 H2'],
      (Hrnd (n + 2)%nat) as [H3 H3'].
    set (baseDistance := rnd n * 20000 + 2000).
    set (trafficFactor := 1.2 + rnd (n + 1)%nat * 0.8).
    set (avgSpeed := 15 + rnd (n + 2)%nat * 10).
    assert (2000 <= baseDistance ∧ baseDistance < 22000) as [Hd Hd']
      by (unfold baseDistance; lra).
    assert (1.2 <= trafficFactor ∧ trafficFactor < 2) as [Ht Ht']
      by (unfold trafficFactor; lra).
    destruct (speed_factor_bounds avgSpeed) as [Hs Hs'];
      [unfold avgSpeed; lra..|].
    set (y := 3600 / avgSpeed) in *.
    assert (2 <= baseDistance / 1000 ∧ baseDistance / 1000 < 22) as [Hx Hx'].
    { split; [apply Qle_shift_div_l|apply Qlt_shift_div_r]; lra. }
    set (x := baseDistance / 1000) in *.
    assert (288 <= x * y ∧ x * y < 5280) as [Hp Hp'] by (split; nra).
    set (p := x * y) in *.
    assert (345 + (6 # 10) <= p * trafficFactor ∧ p * trafficFactor < 10560)
      as [Hb Hb'] by (split; nra).
    destruct (Math_round_bounds baseDistance 2000 22000) as [? ?].
    { change (inject_Z 2000) with (2000 # 1). lra. }
    { change (inject_Z (22000 + 1)) with (22001 # 1). lra. }
    destruct (Math_round_bounds (p * trafficFactor) 346 10560) as [? ?].
    { change (inject_Z 346) with (346 # 1). lra. }
    { change (inject_Z (10560 + 1)) with (10561 # 1). lra. }
    by split_and!.
Qed.

(** A simulated entry always has status OK.  Between a location and
    itself, or a location with the same identifier, it is zero and draws
    nothing; otherwise, for draws in [0, 1), it is between 2 and 22 km and
    between 346 and 10560 seconds, and takes three draws. *)
Theorem simulateDistanceBetween_range (rnd : nat → Q) (n : nat)
    (from to : Location) :
  let e := fst (simulateDistanceBetween rnd n from to) in
  let n' := snd (simulateDistanceBetween rnd n from to) in
  status e = "OK" ∧
  (id from = id to →
     value (distance e) = 0 ∧ value (duration e) = 0 ∧ n' = n) ∧
  (id from ≠ id to → (∀ k, 0 <= rnd k ∧ rnd k < 1) →
     2000 <= value (distance e) ∧ value (distance e) <= 22000 ∧
     346 <= value (duration e) ∧ value (duration e) <= 10560 ∧
     n' = (n + 3)%nat).
Proof.
  intros e n'. subst e n'.
  destruct (simulateDistanceBetween_spec rnd n from to) as (Hok & Hsame & Hdiff).
  split; [exact Hok|]. split; [exact Hsame|exact Hdiff].
Qed.

Lemma simulateDistanceBetween_range_witness :
  let e := fst (simulateDistanceBetween half 0 (loc "A" false) (loc "B" false)) in
  let n' := snd (simulateDistanceBetween half 0 (loc "A" false) (loc "B" false)) in
  2000 <= value (distance e) ∧ value (distance e) <= 22000 ∧
  346 <= value (duration e) ∧ value (duration e) <= 10560 ∧
  n' = 3%nat.
Proof.
  apply (simulateDistanceBetween_range half 0 (loc "A" false) (loc "B" false)).
  - discriminate.
  - intros k. unfold half. split; lra.
Defined.

(** ** Filling a matrix row by row *)

Lemma set_entry_row (matrix : DistanceMatrix) (a b : string)
    (e : DistanceMatrixElement) (row : gmap string DistanceMatrixElement) :
  matrix !! a = Some row →
  set_entry matrix a b e = <[a := <[b := e]> row]> matrix.
Proof.
  intros Hrow. unfold set_entry. apply map_eq. intros k.
  destruct (decide (a = k)) as [<-|Hne].
  - by rewrite lookup_alter_eq, lookup_insert_eq, Hrow.
  - by rewrite lookup_alter_ne, lookup_insert_ne.
Qed.

Section FillRow.
Context {X : Type}.
Variable a : string.
Variable key : X → string.
Variable f : DistanceMatrix * nat → X → DistanceMatrix * nat.
Variable G : string → DistanceMatrixElement → Prop.
Hypothesis f_sets : ∀ matrix n x,
  ∃ e n', f (matrix, n) x = (set_entry matrix a (key x) e, n') ∧ G (key x) e.

(** A loop that stores an entry of row [a] for each element of [xs]
    replaces row [a] by a row that has a good entry under every key of
    [xs] and is unchanged elsewhere. *)
Lemma fold_fill_row (xs : list X) :
  ∀ matrix n row,
    matrix !! a = Some row →
    ∃ row' n',
      fold_left f xs (matrix, n) = (<[a := row']> matrix, n') ∧
      (∀ b, b ∈ key <$> xs → ∃ e, row' !! b = Some e ∧ G b e) ∧
      (∀ b, b ∉ key <$> xs → row' !! b = row !! b).
Proof.
  induction xs as [|x xs IH]; intros matrix n row Hrow; simpl.
  - exists row, n. split_and!.
    + by rewrite insert_id.
    + intros b Hb. by apply elem_of_nil in Hb.
    + done.
  - destruct (f_sets matrix n x) as (e & n1 & -> & He).
    rewrite (set_entry_row _ _ _ _ _ Hrow).
    destruct (IH (<[a := <[key x := e]> row]> matrix) n1 (<[key x := e]> row))
      as (row' & n' & -> & Hin & Hout); [by rewrite lookup_insert_eq|].
    exists row', n'. split_and!.
    + by rewrite insert_insert_eq.
    + intros b Hb. destruct (decide (b ∈ key <$> xs)) as [Hb'|Hb'].
      * by apply Hin.
      * apply elem_of_cons in Hb as [->|Hb]; [|done].
        exists e. by rewrite Hout, lookup_insert_eq.
    + intros b Hb. apply not_elem_of_cons in Hb as [Hne Hb].
      by rewrite Hout, lookup_insert_ne.
Qed.
End FillRow.

Section FillMatrix.
Context {Y : Type}.
Variable cols : list string.
Variable rkey : Y → string.
Variable g : DistanceMatrix * nat → Y → DistanceMatrix * nat.
Variable G : string → string → DistanceMatrixElement → Prop.

Hypothesis g_fills : ∀ matrix n y,
  entries_good cols G matrix →
  ∃ row' n',
    g (matrix, n) y = (<[rkey y := row']> matrix, n') ∧
    (∀ b, b ∈ cols → is_Some (row' !! b)) ∧
    (∀ b e, row' !! b = Some e → b ∈ cols ∧ G (rkey y) b e).

Lemma fold_fill_matrix (ys : list Y) :
  ∀ matrix n,
    entries_good cols G matrix →
    entries_good cols G (fst (fold_left g ys (matrix, n))) ∧
    (∀ a, row_complete cols matrix a ∨ a ∈ rkey <$> ys →
          row_complete cols (fst (fold_left g ys (matrix, n))) a) ∧
    (∀ a, a ∉ rkey <$> ys →
          fst (fold_left g ys (matrix, n)) !! a = matrix !! a).
Proof.
  induction ys as [|y ys IH]; intros matrix n Hgood; simpl.
  - split_and!; [done| |done].
    intros a [?|Ha]; [done|]. by apply elem_of_nil in Ha.
  - destruct (g_fills matrix n y Hgood) as (row' & n' & -> & Hfull & Hrow).
    assert (entries_good cols G (<[rkey y := row']> matrix)) as Hgood'.
    { intros a b e. unfold lookup2.
      destruct (decide (rkey y = a)) as [<-|Hne].
      - rewrite lookup_insert_eq. apply Hrow.
      - rewrite lookup_insert_ne by done. apply Hgood. }
    destruct (IH (<[rkey y := row']> matrix) n' Hgood')
      as (Hg & Hc & Hx).
    split_and!; [done| |].
    + intros a Ha. apply Hc.
      destruct (decide (a ∈ rkey <$> ys)) as [?|Hnot]; [by right|left].
      intros b Hb. unfold lookup2.
      destruct (decide (rkey y = a)) as [<-|Hne].
      * rewrite lookup_insert_eq. by apply Hfull.
      * rewrite lookup_insert_ne by done.
        destruct Ha as [Ha|Ha]; [by apply Ha|].
        apply elem_of_cons in Ha as [->|?]; done.
    + intros a Ha. apply not_elem_of_cons in Ha as [Hne Ha].
      by rewrite Hx, lookup_insert_ne.
Qed.
End FillMatrix.

(** ** The simulated matrix *)

Lemma row_from_fill (cols : list string)
    (G : string → DistanceMatrixElement → Prop)
    (row row' : gmap string DistanceMatrixElement) :
  (∀ b, b ∈ cols → ∃ e, row' !! b = Some e ∧ G b e) →
  (∀ b, b ∉ cols → row' !! b = row !! b) →
  (∀ b e, row !! b = Some e → b ∈ cols ∧ G b e) →
  (∀ b, b ∈ cols → is_Some (row' !! b)) ∧
  (∀ b e, row' !! b = Some e → b ∈ cols ∧ G b e).
Proof.
  intros Hin Hout Hrow. split.
  - intros b Hb. destruct (Hin b Hb) as (e & -> & _). by eexists.
  - intros b e He. destruct (decide (b ∈ cols)) as [Hb|Hb].
    + split; [done|]. destruct (Hin b Hb) as (e' & He' & HG). congruence.
    + rewrite Hout in He by done. by apply Hrow.
Qed.

Lemma simulate_row (rnd : nat → Q) (locations : list Location)
    (matrix : DistanceMatrix) (n : nat) (from : Location) :
  ∃ row' n',
    fold_left
      (λ '(matrix, n) to,
         let '(element, n') := simulateDistanceBetween rnd n from to in
         (set_entry matrix (id from) (id to) element, n'))
      locations (<[id from := ∅]> matrix, n)
    = (<[id from := row']> matrix, n') ∧
    (∀ b, b ∈ id <$> locations → is_Some (row' !! b)) ∧
    (∀ b e, row' !! b = Some e →
            b ∈ id <$> locations ∧ sim_entry rnd (id from) b e).
Proof.
  destruct (fold_fill_row (id from) id
    (λ '(matrix, n) to,
       let '(element, n') := simulateDistanceBetween rnd n from to in
       (set_entry matrix (id from) (id to) element, n'))
    (sim_entry rnd (id from))) with (xs := locations)
    (matrix := <[id from := ∅]> matrix) (n := n)
    (row := (∅ : gmap string DistanceMatrixElement))
    as (row' & n' & Heq & Hin & Hout).
  - intros M k to.
    destruct (simulateDistanceBetween rnd k from to) as [e k'] eqn:Hsim.
    exists e, k'. split; [done|]. exists k, from, to. by rewrite Hsim.
  - by rewrite lookup_insert_eq.
  - exists row', n'. rewrite Heq, insert_insert_eq. split; [done|].
    apply (row_from_fill _ _ ∅); [done..|]. intros b e.
    by rewrite lookup_empty.
Qed.

Lemma simulateDistanceMatrix_fill (rnd : nat → Q) (n : nat)
    (locations : list Location) :
  let matrix := fst (simulateDistanceMatrix rnd n locations) in
  entries_good (id <$> locations) (sim_entry rnd) matrix ∧
  (∀ a, a ∈ id <$> locations → row_complete (id <$> locations) matrix a) ∧
  (∀ a, a ∉ id <$> locations → matrix !! a = None).
Proof.
  unfold simulateDistanceMatrix.
  destruct (fold_fill_matrix (id <$> locations) id
    (λ '(matrix, n) from,
       fold_left
         (λ '(matrix, n) to,
            let '(element, n') := simulateDistanceBetween rnd n from to in
            (set_entry matrix (id from) (id to) element, n'))
         locations (<[id from := ∅]> matrix, n))
    (sim_entry rnd)) with (ys := locations) (matrix := (∅ : DistanceMatrix))
    (n := n) as (Hgood & Hfull & Hout).
  - intros M k from _. apply simulate_row.
  - intros a b e. unfold lookup2. by rewrite lookup_empty.
  - split_and!; [done| |].
    + intros a Ha. apply Hfull. by right.
    + intros a Ha. by rewrite Hout, lookup_empty.
Qed.

Lemma map_fmap {A B} (f : A → B) (l : list A) : map f l = f <$> l.
Proof. induction l as [|x l IH]; [done|]. simpl. by rewrite IH. Qed.

Lemma sim_entry_spec (rnd : nat → Q) (a b : string)
    (e : DistanceMatrixElement) :
  sim_entry rnd a b e →
  status e = "OK" ∧
  (a = b → value (distance e) = 0 ∧ value (duration e) = 0) ∧
  (a ≠ b → (∀ k, 0 <= rnd k ∧ rnd k < 1) →
     2000 <= value (distance e) ∧ value (distance e) <= 22000 ∧
     346 <= value (duration e) ∧ value (duration e) <= 10560).
Proof.
  intros (n & from & to & <- & <- & ->).
  destruct (simulateDistanceBetween_spec rnd n from to) as (Hok & Hsame & Hdiff).
  split_and!; [done|naive_solver|]. intros Hne Hrnd.
  destruct (Hdiff Hne Hrnd) as (? & ? & ? & ? & _). done.
Qed.

(** The simulated matrix has an entry exactly for the pairs of identifiers
    of the locations; every entry has status OK, is zero between equal
    identifiers and, for draws in [0, 1), lies between 2 and 22 km and
    between 346 and 10560 seconds otherwise. *)
Theorem simulateDistanceMatrix_complete (rnd : nat → Q) (n : nat)
    (locations : list Location) :
  let matrix := fst (simulateDistanceMatrix rnd n locations) in
  (∀ a b, is_Some (lookup2 matrix a b) ↔
          a ∈ map id locations ∧ b ∈ map id locations) ∧
  (∀ a b e, lookup2 matrix a b = Some e →
     status e = "OK" ∧
     (a = b → value (distance e) = 0 ∧ value (duration e) = 0) ∧
     (a ≠ b → (∀ k, 0 <= rnd k ∧ rnd k < 1) →
        2000 <= value (distance e) ∧ value (distance e) <= 22000 ∧
        346 <= value (duration e) ∧ value (duration e) <= 10560)).
Proof.
  intros matrix. rewrite map_fmap.
  destruct (simulateDistanceMatrix_fill rnd n locations)
    as (Hgood & Hfull & Hout). fold matrix in Hgood, Hfull, Hout.
  split.
  - intros a b. split.
    + intros [e He]. split; [|by apply (Hgood a b e)].
      destruct (decide (a ∈ id <$> locations)) as [?|Ha]; [done|].
      unfold lookup2 in He. by rewrite (Hout a Ha) in He.
    + intros [Ha Hb]. by apply Hfull.
  - intros a b e He. apply sim_entry_spec. by apply (Hgood a b e).
Qed.

Lemma simulateDistanceMatrix_complete_witness :
  is_Some (lookup2 (fst (simulateDistanceMatrix half 0 three_stops)) "D1" "B").
Proof.
  apply (proj1 (simulateDistanceMatrix_complete half 0 three_stops) "D1" "B").
  split; compute_done.
Defined.

(** ** The matrix of the Distance Matrix service *)

Lemma fill_entry_sets (rnd : nat → Q) (response : Response)
    (originLocation : Location) (originIndex : nat)
    (matrix : DistanceMatrix) (n : nat) (dest : nat * Location) :
  ∃ e n',
    fill_entry rnd response originLocation originIndex (matrix, n) dest =
      (set_entry matrix (id originLocation) (id (snd dest)) e, n') ∧
    status e = "OK".
Proof.
  destruct dest as [destIndex destLocation]. unfold fill_entry. simpl.
  pose proof (simulateDistanceBetween_spec rnd n originLocation destLocation)
    as (Hok & _).
  destruct (simulateDistanceBetween rnd n originLocation destLocation)
    as [es ns].
  destruct (match rows response !! originIndex with
            | Some row => elements row !! destIndex
            | None => None
            end) as [element|]; [|by eauto].
  destruct (String.eqb (element_status element) "OK"); [|by eauto].
  destruct (element_distance element) as [d|]; [|by eauto].
  destruct (element_duration element) as [t|]; by eauto.
Qed.

Lemma zip_keys (s : list nat) (locations : list Location) :
  (length locations ≤ length s)%nat →
  (λ p : nat * Location, id (snd p)) <$> zip s locations = id <$> locations.
Proof.
  revert s. induction locations as [|l locations IH]; intros s Hlen.
  - by destruct s.
  - destruct s as [|i s]; simpl in *; [lia|].
    f_equal. apply IH. lia.
Qed.

Lemma zip_seq_keys (locations : list Location) :
  (λ p : nat * Location, id (snd p)) <$> zip (seq 0 (length locations)) locations
  = id <$> locations.
Proof. apply zip_keys. by rewrite length_seq. Qed.

Lemma fill_row_fills (rnd : nat → Q) (response : Response)
    (locations : list Location) (matrix : DistanceMatrix) (n : nat)
    (origin : nat * Location) :
  entries_good (id <$> locations) (λ _ _ e, status e = "OK") matrix →
  ∃ row' n',
    fill_row rnd response locations (matrix, n) origin =
      (<[id (snd origin) := row']> matrix, n') ∧
    (∀ b, b ∈ id <$> locations → is_Some (row' !! b)) ∧
    (∀ b e, row' !! b = Some e → b ∈ id <$> locations ∧ status e = "OK").
Proof.
  intros Hgood. destruct origin as [originIndex originLocation].
  unfold fill_row. simpl.
  set (matrix1 := match matrix !! id originLocation with
                  | Some _ => matrix
                  | None => <[id originLocation := ∅]> matrix
                  end).
  set (row := default ∅ (matrix !! id originLocation)).
  assert (matrix1 !! id originLocation = Some row) as Hrow.
  { unfold matrix1, row. destruct (matrix !! id originLocation) eqn:Hm;
      [done|]. by rewrite lookup_insert_eq. }
  assert (∀ row', <[id originLocation := row']> matrix1
                  = <[id originLocation := row']> matrix) as Hins.
  { intros row'. unfold matrix1. destruct (matrix !! id originLocation);
      [done|]. by rewrite insert_insert_eq. }
  destruct (fold_fill_row (id originLocation)
    (λ p : nat * Location, id (snd p))
    (fill_entry rnd response originLocation originIndex)
    (λ _ e, status e = "OK")
    (fill_entry_sets rnd response originLocation originIndex)
    (zip (seq 0 (length locations)) locations) matrix1 n row Hrow)
    as (row' & n' & Heq & Hin & Hout).
  rewrite zip_seq_keys in Hin, Hout.
  exists row', n'. rewrite Heq, Hins. split; [done|].
  apply (row_from_fill _ _ row); [done..|].
  intros b e He. apply (Hgood (id originLocation) b e).
  unfold lookup2. unfold row in He.
  destruct (matrix !! id originLocation); simpl in He; [done|].
  by rewrite lookup_empty in He.
Qed.

Lemma getRealDistanceMatrix_fill (env : Environment) (rnd : nat → Q) (n : nat)
    (locations : list Location) (matrix : DistanceMatrix) (n' : nat) :
  getRealDistanceMatrix env rnd n locations = (Returned matrix, n') →
  entries_good (id <$> locations) (λ _ _ e, status e = "OK") matrix ∧
  (∀ a, a ∈ id <$> locations → row_complete (id <$> locations) matrix a) ∧
  (∀ a, a ∉ id <$> locations → matrix !! a = None).
Proof.
  unfold getRealDistanceMatrix.
  destruct (negb (google_loaded env)); [done|].
  destruct (String.eqb (answer_status env) "OK"); [|done].
  destruct (answer_response env) as [response|]; [|done].
  destruct (fold_fill_matrix (id <$> locations)
    (λ p : nat * Location, id (snd p))
    (fill_row rnd response locations)
    (λ _ _ e, status e = "OK")
    (fill_row_fills rnd response locations)
    (zip (seq 0 (length locations)) locations) ∅ n)
    as (Hgood & Hfull & Hout).
  { intros a b e. unfold lookup2. by rewrite lookup_empty. }
  rewrite zip_seq_keys in Hfull, Hout.
  destruct (fold_left _ _ _) as [m k]. simpl in *. intros [= <- <-].
  split_and!; [done| |].
  - intros a Ha. apply Hfull. by right.
  - intros a Ha. by rewrite Hout, lookup_empty.
Qed.

Lemma getDistanceMatrix_fill (env : Environment) (rnd : nat → Q) (n : nat)
    (locations : list Location) :
  let matrix := fst (getDistanceMatrix env rnd n locations) in
  entries_good (id <$> locations) (λ _ _ e, status e = "OK") matrix ∧
  (∀ a, a ∈ id <$> locations → row_complete (id <$> locations) matrix a) ∧
  (∀ a, a ∉ id <$> locations → matrix !! a = None).
Proof.
  assert (∀ k,
    let matrix := fst (simulateDistanceMatrix rnd k locations) in
    entries_good (id <$> locations) (λ _ _ e, status e = "OK") matrix ∧
    (∀ a, a ∈ id <$> locations → row_complete (id <$> locations) matrix a) ∧
    (∀ a, a ∉ id <$> locations → matrix !! a = None)) as Hsim.
  { intros k. destruct (simulateDistanceMatrix_fill rnd k locations)
      as (Hgood & Hfull & Hout).
    split_and!; [|done..]. intros a b e He.
    destruct (Hgood a b e He) as [Hb Hs]. split; [done|].
    by apply sim_entry_spec in Hs as (? & _). }
  unfold getDistanceMatrix.
  destruct (length locations =? 0)%nat eqn:Hlen.
  - apply Nat.eqb_eq, nil_length_inv in Hlen. subst locations. simpl.
    split_and!.
    + intros a b e. unfold lookup2. by rewrite lookup_empty.
    + intros a Ha. by apply elem_of_nil in Ha.
    + intros a _. apply lookup_empty.
  - destruct (negb (isApiKeyConfigured env)); [apply Hsim|].
    destruct (getRealDistanceMatrix env rnd n locations) as [[m|err] k] eqn:Hreal.
    + by apply (getRealDistanceMatrix_fill env rnd n locations m k).
    + apply Hsim.
Qed.

Lemma fill_entry_exact (rnd : nat → Q) (response : Response)
    (originLocation : Location) (originIndex : nat)
    (matrix : DistanceMatrix) (n : nat) (dest : nat * Location) :
  ∃ e n',
    fill_entry rnd response originLocation originIndex (matrix, n) dest =
      (set_entry matrix (id originLocation) (id (snd dest)) e, n') ∧
    answered_or_simulated rnd response originIndex originLocation
      (fst dest) (snd dest) e.
Proof.
  destruct dest as [destIndex destLocation].
  unfold fill_entry, answered_or_simulated, usable. simpl.
  destruct (simulateDistanceBetween rnd n originLocation destLocation)
    as [es ns] eqn:Hsim.
  assert (∃ k, es = fst (simulateDistanceBetween rnd k originLocation destLocation))
    as Hes by (exists n; by rewrite Hsim).
  destruct (rows response !! originIndex) as [row|]; [|by eauto].
  destruct (elements row !! destIndex) as [element|]; [|by eauto].
  destruct (String.eqb (element_status element) "OK"); [|by eauto].
  destruct (element_distance element) as [d|]; [|by eauto].
  destruct (element_duration element) as [t|]; by eauto.
Qed.

Section FillRowAt.
Context {X : Type}.
Variable a : string.
Variable key : X → string.
Variable f : DistanceMatrix * nat → X → DistanceMatrix * nat.
Variable R : X → DistanceMatrixElement → Prop.
Hypothesis f_sets : ∀ matrix n x,
  ∃ e n', f (matrix, n) x = (set_entry matrix a (key x) e, n') ∧ R x e.

(** When the keys of [xs] are distinct, the entry that the loop leaves
    under the key of an element is the one it stored for that element. *)
Lemma fold_fill_row_at (xs : list X) :
  NoDup (key <$> xs) →
  ∀ matrix n row,
    matrix !! a = Some row →
    ∃ row' n',
      fold_left f xs (matrix, n) = (<[a := row']> matrix, n') ∧
      (∀ x, x ∈ xs → ∃ e, row' !! key x = Some e ∧ R x e) ∧
      (∀ b, b ∉ key <$> xs → row' !! b = row !! b).
Proof.
  induction xs as [|x xs IH]; intros Hnd matrix n row Hrow; simpl.
  - exists row, n. split_and!.
    + by rewrite insert_id.
    + intros x Hx. by apply elem_of_nil in Hx.
    + done.
  - rewrite fmap_cons in Hnd. apply NoDup_cons in Hnd as [Hx Hnd].
    destruct (f_sets matrix n x) as (e & n1 & -> & He).
    rewrite (set_entry_row _ _ _ _ _ Hrow).
    destruct (IH Hnd (<[a := <[key x := e]> row]> matrix) n1 (<[key x := e]> row))
      as (row' & n' & -> & Hin & Hout); [by rewrite lookup_insert_eq|].
    exists row', n'. split_and!.
    + by rewrite insert_insert_eq.
    + intros y Hy. apply elem_of_cons in Hy as [->|Hy]; [|by apply Hin].
      exists e. by rewrite (Hout _ Hx), lookup_insert_eq.
    + intros b Hb. apply not_elem_of_cons in Hb as [Hne Hb].
      by rewrite Hout, lookup_insert_ne.
Qed.
End FillRowAt.

Section FillMatrixAt.
Context {Y : Type}.
Variable rkey : Y → string.
Variable g : DistanceMatrix * nat → Y → DistanceMatrix * nat.
Variable R : Y → gmap string DistanceMatrixElement → Prop.
Hypothesis g_fills : ∀ matrix n y,
  ∃ row' n', g (matrix, n) y = (<[rkey y := row']> matrix, n') ∧ R y row'.

(** When the keys of [ys] are distinct, the row that the loop leaves under
    the key of an element is the one it built for that element. *)
Lemma fold_fill_matrix_at (ys : list Y) :
  NoDup (rkey <$> ys) →
  ∀ matrix n,
    (∀ y, y ∈ ys →
       ∃ row', fst (fold_left g ys (matrix, n)) !! rkey y = Some row' ∧ R y row') ∧
    (∀ a, a ∉ rkey <$> ys → fst (fold_left g ys (matrix, n)) !! a = matrix !! a).
Proof.
  induction ys as [|y ys IH]; intros Hnd matrix n; simpl.
  - split; [|done]. intros y Hy. by apply elem_of_nil in Hy.
  - rewrite fmap_cons in Hnd. apply NoDup_cons in Hnd as [Hy Hnd].
    destruct (g_fills matrix n y) as (row' & n' & -> & Hrow).
    destruct (IH Hnd (<[rkey y := row']> matrix) n') as [Hin Hout].
    split.
    + intros z Hz. apply elem_of_cons in Hz as [->|Hz]; [|by apply Hin].
      exists row'. by rewrite (Hout _ Hy), lookup_insert_eq.
    + intros a Ha. apply not_elem_of_cons in Ha as [Hne Ha].
      by rewrite Hout, lookup_insert_ne.
Qed.
End FillMatrixAt.

Lemma elem_of_zip_seq {A} (l : list A) (i : nat) (x : A) :
  l !! i = Some x → (i, x) ∈ zip (seq 0 (length l)) l.
Proof.
  intros Hi. apply list_elem_of_lookup. exists i.
  apply lookup_zip_with_Some. exists i, x. split_and!; [done| |done].
  apply lookup_seq. split; [done|]. by eapply lookup_lt_Some.
Qed.

Lemma fill_row_exact (rnd : nat → Q) (response : Response)
    (locations : list Location) (matrix : DistanceMatrix) (n : nat)
    (origin : nat * Location) :
  NoDup (id <$> locations) →
  ∃ row' n',
    fill_row rnd response locations (matrix, n) origin =
      (<[id (snd origin) := row']> matrix, n') ∧
    ∀ j d, locations !! j = Some d →
      ∃ e, row' !! id d = Some e ∧
           answered_or_simulated rnd response (fst origin) (snd origin) j d e.
Proof.
  intros Hnd. destruct origin as [originIndex originLocation].
  unfold fill_row. simpl.
  set (matrix1 := match matrix !! id originLocation with
                  | Some _ => matrix
                  | None => <[id originLocation := ∅]> matrix
                  end).
  set (row := default ∅ (matrix !! id originLocation)).
  assert (matrix1 !! id originLocation = Some row) as Hrow.
  { unfold matrix1, row. destruct (matrix !! id originLocation) eqn:Hm;
      [done|]. by rewrite lookup_insert_eq. }
  assert (∀ row', <[id originLocation := row']> matrix1
                  = <[id originLocation := row']> matrix) as Hins.
  { intros row'. unfold matrix1. destruct (matrix !! id originLocation);
      [done|]. by rewrite insert_insert_eq. }
  destruct (fold_fill_row_at (id originLocation)
    (λ p : nat * Location, id (snd p))
    (fill_entry rnd response originLocation originIndex)
    (λ p e, answered_or_simulated rnd response originIndex originLocation
              (fst p) (snd p) e)
    (fill_entry_exact rnd response originLocation originIndex)
    (zip (seq 0 (length locations)) locations)) with (matrix := matrix1)
    (n := n) (row := row) as (row' & n' & Heq & Hin & _);
    [by rewrite zip_seq_keys|done|].
  exists row', n'. rewrite Heq, Hins. split; [done|].
  intros j d Hj. exact (Hin (j, d) (elem_of_zip_seq _ _ _ Hj)).
Qed.

Lemma getRealDistanceMatrix_exact (env : Environment) (rnd : nat → Q) (n : nat)
    (locations : list Location) (response : Response) :
  google_loaded env = true → answer_status env = "OK" →
  answer_response env = Some response →
  NoDup (id <$> locations) →
  ∃ matrix n',
    getRealDistanceMatrix env rnd n locations = (Returned matrix, n') ∧
    ∀ i j o d, locations !! i = Some o → locations !! j = Some d →
      ∃ e, lookup2 matrix (id o) (id d) = Some e ∧
           answered_or_simulated rnd response i o j d e.
Proof.
  intros Hloaded Hstatus Hresp Hnd. unfold getRealDistanceMatrix.
  rewrite Hloaded, Hstatus, Hresp. simpl.
  destruct (fold_fill_matrix_at
    (λ p : nat * Location, id (snd p))
    (fill_row rnd response locations)
    (λ p row', ∀ j d, locations !! j = Some d →
       ∃ e, row' !! id d = Some e ∧
            answered_or_simulated rnd response (fst p) (snd p) j d e))
    with (ys := zip (seq 0 (length locations)) locations)
         (matrix := (∅ : DistanceMatrix)) (n := n) as [Hin _].
  - intros M k y. by apply fill_row_exact.
  - by rewrite zip_seq_keys.
  - destruct (fold_left _ _ _) as [m k]. simpl in *.
    exists m, k. split; [done|]. intros i j o d Hi Hj.
    destruct (Hin (i, o) (elem_of_zip_seq _ _ _ Hi)) as (row' & Hrow & Hfill).
    simpl in Hrow. unfold lookup2. rewrite Hrow. by apply Hfill.
Qed.

Lemma simulateDistanceMatrix_nil (rnd : nat → Q) (n : nat) :
  simulateDistanceMatrix rnd n [] = (∅, n).
Proof. done. Qed.

(** Whatever the key, the script and the service do, the matrix that
    [getDistanceMatrix] returns has an entry exactly for the pairs of
    identifiers of the locations, and every entry has status OK.  Without
    a configured key, without the Maps script, or when the service does not
    answer OK with a response, it is the simulated matrix.  When the
    service answers, and the identifiers are distinct, the entry of a pair
    of locations is the copy of the element of the answer at their
    positions when that element has status OK, a distance and a duration,
    and an entry simulated for the two locations otherwise. *)
Theorem getDistanceMatrix_complete (env : Environment) (rnd : nat → Q)
    (n : nat) (locations : list Location) :
  let matrix := fst (getDistanceMatrix env rnd n locations) in
  (∀ a b, is_Some (lookup2 matrix a b) ↔
          a ∈ map id locations ∧ b ∈ map id locations) ∧
  (∀ a b e, lookup2 matrix a b = Some e → status e = "OK") ∧
  (isApiKeyConfigured env = false ∨ google_loaded env = false ∨
   answer_status env ≠ "OK" ∨ answer_response env = None →
   getDistanceMatrix env rnd n locations = simulateDistanceMatrix rnd n locations) ∧
  (∀ response,
     isApiKeyConfigured env = true → google_loaded env = true →
     answer_status env = "OK" → answer_response env = Some response →
     NoDup (map id locations) →
     ∀ i j o d, locations !! i = Some o → locations !! j = Some d →
       ∃ e, lookup2 matrix (id o) (id d) = Some e ∧
            match usable response i j with
            | Some c => e = c
            | None => ∃ k, e = fst (simulateDistanceBetween rnd k o d)
            end).
Proof.
  intros matrix. rewrite map_fmap.
  destruct (getDistanceMatrix_fill env rnd n locations)
    as (Hgood & Hfull & Hout). fold matrix in Hgood, Hfull, Hout.
  split_and!.
  - intros a b. split.
    + intros [e He]. split; [|by apply (Hgood a b e)].
      destruct (decide (a ∈ id <$> locations)) as [?|Ha]; [done|].
      unfold lookup2 in He. by rewrite (Hout a Ha) in He.
    + intros [Ha Hb]. by apply Hfull.
  - intros a b e He. by apply (Hgood a b e).
  - intros Hfail. unfold getDistanceMatrix.
    destruct locations as [|l locations]; [done|]. simpl.
    destruct (isApiKeyConfigured env); simpl; [|done].
    unfold getRealDistanceMatrix.
    destruct (google_loaded env); simpl.
    + destruct (String.eqb (answer_status env) "OK") eqn:Hst; [|done].
      apply String.eqb_eq in Hst.
      destruct (answer_response env); [|done]. naive_solver.
    + done.
  - intros response Hkey Hloaded Hstatus Hresp Hnd i j o d Hi Hj.
    destruct (getRealDistanceMatrix_exact env rnd n locations response)
      as (m & k & Hreal & Hm); [done..|].
    subst matrix. unfold getDistanceMatrix.
    destruct (length locations =? 0)%nat eqn:Hlen.
    { apply Nat.eqb_eq, nil_length_inv in Hlen. subst locations.
      by rewrite lookup_nil in Hi. }
    rewrite Hkey, Hreal. simpl. apply (Hm i j o d Hi Hj).
Qed.

Lemma getDistanceMatrix_complete_witness :
  let env := {| VITE_GOOGLE_MAPS_API_KEY := Some "key";
                google_loaded := true;
                answer_status := "OK";
                answer_response := Some {| rows := [
                  {| elements := [
                       {| element_status := "OK";
                          element_distance := Some {| text := "0 m"; value := 0 |};
                          element_duration := Some {| text := "0 mins"; value := 0 |} |};
                       {| element_status := "OK";
                          element_distance := Some {| text := "1.5 km"; value := 1500 |};
                          element_duration := Some {| text := "5 mins"; value := 300 |} |}] |}] |} |} in
  let matrix := fst (getDistanceMatrix env half 0 [loc "A" true; loc "B" false]) in
  (∃ e, lookup2 matrix "A" "B" = Some e ∧
        e = {| distance := {| text := "1.5 km"; value := 1500 |};
               duration := {| text := "5 mins"; value := 300 |};
               status := "OK" |}) ∧
  (∃ e, lookup2 matrix "B" "A" = Some e ∧
        ∃ k, e = fst (simulateDistanceBetween half k (loc "B" false) (loc "A" true))).
Proof.
  intros env matrix.
  assert (NoDup (map id [loc "A" true; loc "B" false])) as Hnd.
  { apply NoDup_cons. split; [|apply NoDup_singleton].
    intros Hin. apply list_elem_of_singleton in Hin. discriminate. }
  pose proof (proj2 (proj2 (proj2
    (getDistanceMatrix_complete env half 0 [loc "A" true; loc "B" false])))
    _ eq_refl eq_refl eq_refl eq_refl Hnd) as Hat.
  split.
  - exact (Hat 0%nat 1%nat (loc "A" true) (loc "B" false) eq_refl eq_refl).
  - exact (Hat 1%nat 0%nat (loc "B" false) (loc "A" true) eq_refl eq_refl).
Defined.

(** The service answer is used where it is usable: an element with
    status OK, a distance and a duration is copied into the matrix. *)
Example getDistanceMatrix_copies :
  let env := {| VITE_GOOGLE_MAPS_API_KEY := Some "key";
                google_loaded := true;
                answer_status := "OK";
                answer_response := Some {| rows := [
                  {| elements := [
                       {| element_status := "OK";
                          element_distance := Some {| text := "0 m"; value := 0 |};
                          element_duration := Some {| text := "0 mins"; value := 0 |} |};
                       {| element_status := "OK";
                          element_distance := Some {| text := "1.5 km"; value := 1500 |};
                          element_duration := Some {| text := "5 mins"; value := 300 |} |}] |}] |} |} in
  lookup2 (fst (getDistanceMatrix env half 0 [loc "A" true; loc "B" false]))
          "A" "B"
  = Some {| distance := {| text := "1.5 km"; value := 1500 |};
            duration := {| text := "5 mins"; value := 300 |};
            status := "OK" |}.
Proof. reflexivity. Qed.

(** ** The solver on the matrix of the service *)

Lemma legs_elem_of (l : list string) (a b : string) :
  (a, b) ∈ legs l → a ∈ l ∧ b ∈ l.
Proof.
  unfold legs. intros Hin. split.
  - by eapply elem_of_zip_l.
  - apply elem_of_zip_r in Hin. destruct l; [done|]. by right.
Qed.

Lemma fold_costs_finite (matrix : DistanceMatrix)
    (ps : list (string * string)) :
  Forall (λ p, leg_ok matrix p = true) ps →
  ∀ c, ∃ c',
    fold_left (λ c p, num_add c (calculateCost (fst p) (snd p) matrix)) ps (Fin c)
    = Fin c'.
Proof.
  induction 1 as [|[a b] ps Hp _ IH]; intros c; simpl; [by eexists|].
  destruct (calculateCost a b matrix) as [q|] eqn:Hc; [apply IH|].
  apply calculateCost_leg_ok in Hc. congruence.
Qed.

(** On the matrix of [getDistanceMatrix] for the same stops, every leg of
    the tour has an entry: [optimizeRoute] returns, and its [totalCost]
    is the cost of the returned order, a finite number. *)
Theorem optimizeRoute_on_getDistanceMatrix (env : Environment)
    (rnd : nat → Q) (n : nat) (stops : list Location) :
  (2 < length stops)%nat →
  (∃ l, l ∈ stops ∧ isBase l = Some true) →
  let matrix := fst (getDistanceMatrix env rnd n stops) in
  ∃ r c,
    optimizeRoute stops matrix = Returned r ∧
    totalCost r = Fin c ∧
    calculateRouteCost (order r) matrix = Fin c.
Proof.
  intros Hlen (l & Hl & Hflag) matrix.
  destruct (find (λ l, truthy (isBase l)) stops) as [b|] eqn:Hfind.
  2: { by destruct (proj1 (find_base_None stops) Hfind l Hl). }
  destruct (optimizeRoute_shape stops matrix b Hlen Hfind)
    as (visited & Hperm & Hr).
  set (order0 := id b :: map id visited ++ [id b]) in *.
  destruct (getDistanceMatrix_fill env rnd n stops) as (_ & Hfull & _).
  fold matrix in Hfull.
  assert (b ∈ stops) as Hb.
  { rewrite find_head_filter in Hfind. apply head_Some_elem_of in Hfind.
    by apply list_elem_of_filter in Hfind as [_ ?]. }
  assert (∀ x, x ∈ order0 → x ∈ id <$> stops) as Hids.
  { intros x Hx. rewrite <- map_fmap. unfold order0 in Hx.
    assert (x = id b ∨ x ∈ map id visited) as [->|Hx'].
    { apply elem_of_cons in Hx as [?|Hx]; [by left|].
      apply elem_of_app in Hx as [?|Hx]; [by right|].
      apply list_elem_of_singleton in Hx. by left. }
    - apply list_elem_of_In, in_map. by apply list_elem_of_In.
    - apply list_elem_of_In, in_map_iff in Hx' as (v & <- & Hv).
      apply list_elem_of_In in Hv. rewrite Hperm in Hv.
      apply list_elem_of_filter in Hv as [_ Hv].
      apply list_elem_of_In, in_map. by apply list_elem_of_In. }
  assert (Forall (λ p, leg_ok matrix p = true) (legs order0)) as Hlegs.
  { apply Forall_forall. intros [x y] Hp.
    apply legs_elem_of in Hp as [Hx Hy].
    destruct (Hfull x (Hids x Hx) y (Hids y Hy)) as [e He].
    unfold leg_ok. simpl. rewrite He.
    destruct (getDistanceMatrix_fill env rnd n stops) as (Hgood & _).
    destruct (Hgood x y e He) as [_ Hok]. by apply status_ok_true. }
  destruct (fold_costs_finite matrix (legs order0) Hlegs 0) as [c Hc].
  eexists _, c. split; [exact Hr|]. simpl. split.
  - unfold calculateRouteTotals. rewrite totals_loop_sumCost. simpl.
    by rewrite filter_all_true.
  - unfold calculateRouteCost. by rewrite cost_loop_legs.
Qed.

Lemma optimizeRoute_on_getDistanceMatrix_witness :
  let env := {| VITE_GOOGLE_MAPS_API_KEY := None; google_loaded := false;
                answer_status := "UNKNOWN_ERROR"; answer_response := None |} in
  let matrix := fst (getDistanceMatrix env half 0 three_stops) in
  ∃ r c,
    optimizeRoute three_stops matrix = Returned r ∧
    totalCost r = Fin c ∧
    calculateRouteCost (order r) matrix = Fin c.
Proof.
  apply (optimizeRoute_on_getDistanceMatrix
           {| VITE_GOOGLE_MAPS_API_KEY := None; google_loaded := false;
              answer_status := "UNKNOWN_ERROR"; answer_response := None |}
           half 0 three_stops).
  - simpl. lia.
  - exists (loc "B" true). split; [right; left|reflexivity].
Defined.

(** ** The fallback route *)

(** [getFallbackOptimizedRoute] gives [null] exactly when no location is
    flagged.  Otherwise the order is the first flagged location, the
    unflagged locations in the order they were given, and the first
    flagged location again; for draws in [0, 1) the distance is 8 per
    delivery and at most 10 more, the time 15 per delivery and at most 20
    more. *)
Theorem getFallbackOptimizedRoute_spec (rnd : nat → Q) (n : nat)
    (locations : list Location) :
  (fst (getFallbackOptimizedRoute rnd n locations) = None ↔
     ∀ l, l ∈ locations → isBase l ≠ Some true) ∧
  (∀ r, fst (getFallbackOptimizedRoute rnd n locations) = Some r →
     (∀ k, 0 <= rnd k ∧ rnd k < 1) →
     let deliveries := filter (λ l, negb (truthy (isBase l))) locations in
     let count := inject_Z (Z.of_nat (length deliveries)) in
     ∃ b d t,
       find (λ l, truthy (isBase l)) locations = Some b ∧
       optimizedOrder r = id b :: map id deliveries ++ [id b] ∧
       GoogleMapsService.totalDistance r = Fin d ∧
       GoogleMapsService.totalTime r = Fin t ∧
       count * 8 <= d ∧ d <= count * 8 + 10 ∧
       count * 15 <= t ∧ t <= count * 15 + 20 ∧
       waypoints r = []).
Proof.
  unfold getFallbackOptimizedRoute.
  destruct (find _ locations) as [b|] eqn:Hfind; simpl.
  - split.
    + split; [done|]. intros Hnone.
      apply find_base_None in Hnone. congruence.
    + intros r [= <-] Hrnd. simpl.
      destruct (Hrnd n) as [? ?], (Hrnd (n + 1)%nat) as [? ?].
      eexists b, _, _. split_and!; try done; lra.
  - split; [|done]. split; [|done]. intros _. by apply find_base_None.
Qed.

Lemma getFallbackOptimizedRoute_spec_witness :
  let r := {| optimizedOrder := ["B"; "D1"; "D2"; "B"];
              GoogleMapsService.totalDistance := Fin (inject_Z 2 * 8 + (1 # 2) * 10);
              GoogleMapsService.totalTime := Fin (inject_Z 2 * 15 + (1 # 2) * 20);
              waypoints := [] |} in
  let deliveries := filter (λ l, negb (truthy (isBase l))) three_stops in
  let count := inject_Z (Z.of_nat (length deliveries)) in
  ∃ b d t,
    find (λ l, truthy (isBase l)) three_stops = Some b ∧
    optimizedOrder r = id b :: map id deliveries ++ [id b] ∧
    GoogleMapsService.totalDistance r = Fin d ∧
    GoogleMapsService.totalTime r = Fin t ∧
    count * 8 <= d ∧ d <= count * 8 + 10 ∧
    count * 15 <= t ∧ t <= count * 15 + 20 ∧
    waypoints r = [].
Proof.
  apply (proj2 (getFallbackOptimizedRoute_spec half 0 three_stops)).
  - reflexivity.
  - intros k. unfold half. split; lra.
Defined.

(** ** The averages shown with the matrix *)

Section Average.
Variable matrix : DistanceMatrix.
Variable f : DistanceMatrixElement → Q.

Let step (from : Location) : Q * nat → Location → Q * nat :=
  λ '(total, count) to,
    if negb (String.eqb (id from) (id to)) then
      match lookup2 matrix (id from) (id to) with
      | Some element =>
          if status_ok element
          then (total + f element, S count)
          else (total, count)
      | None => (total, count)
      end
    else (total, count).

Let pick (from to : Location) : list DistanceMatrixElement :=
  if negb (String.eqb (id from) (id to)) then
    match lookup2 matrix (id from) (id to) with
    | Some element => if status_ok element then [element] else []
    | None => []
    end
  else [].

Lemma average_inner (from : Location) (tos : list Location) :
  ∀ total count,
    fold_left (step from) tos (total, count) =
      (fold_left (λ total e, total + f e) (tos ≫= pick from) total,
       (count + length (tos ≫= pick from))%nat).
Proof.
  induction tos as [|to tos IH]; intros total count; simpl.
  - by rewrite Nat.add_0_r.
  - rewrite fold_left_app, length_app. unfold pick at 2 3.
    destruct (negb (String.eqb (id from) (id to))); simpl;
      [|by rewrite IH].
    destruct (lookup2 matrix (id from) (id to)) as [e|]; simpl;
      [|by rewrite IH].
    destruct (status_ok e); simpl; rewrite IH; [|done].
    by rewrite Nat.add_succ_r.
Qed.

Lemma average_outer (locations froms : list Location) :
  ∀ total count,
    fold_left (λ acc from, fold_left (step from) locations acc) froms
              (total, count) =
      (fold_left (λ total e, total + f e)
                 (froms ≫= λ from, locations ≫= pick from) total,
       (count + length (froms ≫= λ from, locations ≫= pick from))%nat).
Proof.
  induction froms as [|from froms IH]; intros total count; simpl.
  - by rewrite Nat.add_0_r.
  - rewrite average_inner, IH, fold_left_app, length_app.
    by rewrite Nat.add_assoc.
Qed.

Lemma average_mean (locations : list Location) :
  (let '(total, count) :=
     fold_left (λ acc from, fold_left (step from) locations acc) locations
               (0, 0%nat) in
   if (0 <? count)%nat then total / inject_Z (Z.of_nat count) else 0)
  = mean_of f (ok_entries matrix locations).
Proof.
  rewrite average_outer. simpl. unfold mean_of.
  change (locations ≫= λ from, locations ≫= pick from)
    with (ok_entries matrix locations).
  by destruct (ok_entries matrix locations).
Qed.
End Average.

(** Without an OK entry between two locations with different identifiers
    there is nothing to average. *)
Lemma ok_entries_nil (matrix : DistanceMatrix) (locations : list Location) :
  (∀ from to, from ∈ locations → to ∈ locations → id from ≠ id to →
              leg_ok matrix (id from, id to) = false) →
  ok_entries matrix locations = [].
Proof.
  intros Hnone. unfold ok_entries.
  assert (∀ froms, froms ⊆ locations →
    (froms ≫= λ from, locations ≫= λ to,
       if negb (String.eqb (id from) (id to)) then
         match lookup2 matrix (id from) (id to) with
         | Some element => if status_ok element then [element] else []
         | None => []
         end
       else []) = []) as Hall; [|by apply Hall].
  induction froms as [|from froms IH]; intros Hsub; [done|].
  rewrite bind_cons. rewrite IH by set_solver. rewrite app_nil_r.
  assert (from ∈ locations) as Hfrom by set_solver.
  assert (∀ tos, tos ⊆ locations →
    (tos ≫= λ to,
       if negb (String.eqb (id from) (id to)) then
         match lookup2 matrix (id from) (id to) with
         | Some element => if status_ok element then [element] else []
         | None => []
         end
       else []) = []) as Hrow; [|by apply Hrow].
  induction tos as [|to tos IHt]; intros Hsub'; [done|].
  rewrite bind_cons. rewrite IHt by set_solver. rewrite app_nil_r.
  destruct (String.eqb (id from) (id to)) eqn:Heq; [done|]. simpl.
  apply String.eqb_neq in Heq.
  assert (to ∈ locations) as Hto by set_solver.
  specialize (Hnone from to Hfrom Hto Heq). unfold leg_ok in Hnone.
  simpl in Hnone. destruct (lookup2 matrix (id from) (id to)); [|done].
  by rewrite Hnone.
Qed.

Lemma no_leg_none (from to : Location) :
  from ∈ three_stops → to ∈ three_stops → id from ≠ id to →
  leg_ok no_leg (id from, id to) = false.
Proof.
  unfold three_stops. intros Hf Ht Hne.
  apply list_elem_of_In in Hf, Ht. simpl in Hf, Ht.
  destruct Hf as [<-|[<-|[<-|[]]]], Ht as [<-|[<-|[<-|[]]]]; done.
Qed.

(** [calculateAverageDistance] is the mean of the kilometres of the
    entries with status OK between locations with different identifiers,
    taken once for each ordered pair of locations and summed in the order of
    the loops; it is [0] when no pair of locations with different
    identifiers has an entry with status OK. *)
Theorem calculateAverageDistance_mean (matrix : DistanceMatrix)
    (locations : list Location) :
  calculateAverageDistance matrix locations =
    mean_of (λ e, value (distance e) / 1000) (ok_entries matrix locations) ∧
  ((∀ from to, from ∈ locations → to ∈ locations → id from ≠ id to →
               leg_ok matrix (id from, id to) = false) →
   calculateAverageDistance matrix locations = 0).
Proof.
  assert (calculateAverageDistance matrix locations =
            mean_of (λ e, value (distance e) / 1000) (ok_entries matrix locations))
    as Hmean.
  { rewrite <- (average_mean matrix (λ e, value (distance e) / 1000) locations).
    reflexivity. }
  split; [done|]. intros Hnone. by rewrite Hmean, (ok_entries_nil _ _ Hnone).
Qed.

Lemma calculateAverageDistance_mean_witness :
  calculateAverageDistance no_leg three_stops = 0.
Proof.
  apply (proj2 (calculateAverageDistance_mean no_leg three_stops)).
  apply no_leg_none.
Defined.

(** [calculateAverageTime] is the mean of the minutes of the same entries,
    and [0] when there is none. *)
Theorem calculateAverageTime_mean (matrix : DistanceMatrix)
    (locations : list Location) :
  calculateAverageTime matrix locations =
    mean_of (λ e, value (duration e) / 60) (ok_entries matrix locations) ∧
  ((∀ from to, from ∈ locations → to ∈ locations → id from ≠ id to →
               leg_ok matrix (id from, id to) = false) →
   calculateAverageTime matrix locations = 0).
Proof.
  assert (calculateAverageTime matrix locations =
            mean_of (λ e, value (duration e) / 60) (ok_entries matrix locations))
    as Hmean.
  { rewrite <- (average_mean matrix (λ e, value (duration e) / 60) locations).
    reflexivity. }
  split; [done|]. intros Hnone. by rewrite Hmean, (ok_entries_nil _ _ Hnone).
Qed.

Lemma calculateAverageTime_mean_witness :
  calculateAverageTime no_leg three_stops = 0.
Proof.
  apply (proj2 (calculateAverageTime_mean no_leg three_stops)).
  apply no_leg_none.
Defined.

(** One OK entry of 1500 m and 300 s: the averages are 1.5 km and 5
    minutes. *)
Example averages_one_leg :
  calculateAverageDistance one_leg three_stops == 1.5 ∧
  calculateAverageTime one_leg three_stops == 5.
Proof. split; reflexivity. Qed.
